(** * EddyTracks: gap filling and track distance

    A shallow embedding of [fillCoords], [haversine] and [geodist] from
    [src/EddyTracks.py], together with the properties of them that the
    specification states.

    Number model.  The NumPy arrays the source works on hold [float64]
    values.  Coordinates (degrees) and distances (km) are idealised as the
    real numbers of the Standard Library: rounding is not modelled, and
    every arithmetic operator of the source is the exact one.  A real is
    never NaN, so what [float64] does when rounding takes a value out of
    the domain of an operator (the square root of [haversine]) is outside
    this model.  Time steps are integer-valued (they index the frames of
    the tracking run) and are modelled as [Z]. *)

From Stdlib Require Import ZArith String List Bool FinFun Lia Lra.
From Stdlib Require Import Reals.
Import ListNotations.

Open Scope Z_scope.

(** ** Exceptions and results *)

(** The exceptions the embedded code can raise. *)
Inductive exn : Type :=
| ValueError (msg : string)
| IndexError
| UnboundLocalError.

(** The outcome of a call: a returned value or a raised exception. *)
Inductive res (A : Type) : Type :=
| Ok (a : A)
| Raise (e : exn).

Arguments Ok {A} a.
Arguments Raise {A} e.

Definition bind {A B : Type} (m : res A) (f : A -> res B) : res B :=
  match m with
  | Ok a => f a
  | Raise e => Raise e
  end.

Notation "x <- m ;; k" := (bind m (fun x => k))
  (at level 61, m at next level, right associativity).
Notation "' pat <- m ;; k" := (bind m (fun x => match x with pat => k end))
  (at level 61, pat pattern, m at next level, right associativity).

(** ** Python and NumPy primitives *)

(** [l[i]]: a negative index counts from the end, an index out of range
    raises [IndexError]. *)
Definition getitem {A : Type} (l : list A) (i : Z) : res A :=
  let n := Z.of_nat (length l) in
  let j := if i <? 0 then i + n else i in
  if (0 <=? j) && (j <? n)
  then match nth_error l (Z.to_nat j) with
       | Some x => Ok x
       | None => Raise IndexError
       end
  else Raise IndexError.

(** [np.arange(start, stop, 1.)] on integer-valued bounds: the values
    [start, start+1, ..., stop-1], none when [stop <= start]. *)
Definition arange (start stop : Z) : list Z :=
  map (fun k => start + Z.of_nat k) (seq 0 (Z.to_nat (stop - start))).

(** [np.ones(n) * v]: each of the [n] ones is multiplied by [v]. *)
Definition ones_times (n : nat) (v : R) : list R :=
  map (fun one => (one * v)%R) (repeat 1%R n).

(** [y[-1] = stop]: overwrite the last element of a non-empty array. *)
Definition set_last (y : list R) (stop : R) : list R :=
  match y with
  | [] => []
  | _ :: _ => removelast y ++ [stop]
  end.

(** [np.linspace(start, stop, num=num)], with NumPy's default
    [endpoint=True]: [arange(0, num) * step + start] with
    [step = (stop - start) / (num - 1)], the last sample then overwritten
    with [stop] when [num > 1].  With [num = 1] NumPy has no step
    ([div = 0]) and scales the single [0.] by [stop - start].  NumPy's
    separate path for a step that is 0 ([y / div * delta]) gives the same
    samples in exact arithmetic and is not distinguished. *)
Definition linspace (start stop : R) (num : nat) : list R :=
  let div := (Z.of_nat num - 1)%Z in
  let delta := (stop - start)%R in
  let y := map INR (seq 0 num) in
  let y := if (0 <? div)%Z
           then map (fun v => (v * (delta / IZR div))%R) y
           else map (fun v => (v * delta)%R) y in
  let y := map (fun v => (v + start)%R) y in
  if (1 <? Z.of_nat num)%Z then set_last y stop else y.

(** ** fillCoords (src/EddyTracks.py, lines 74-128) *)

(** The loop-carried variables [prev], [steps], [lons], [lats]. *)
Record fill_state : Type := mk_fill_state {
  prev : Z;
  steps : list Z;
  lons : list R;
  lats : list R
}.

(** Lines 100-117: the [if]/[elif] chain on [fill] that computes
    [lonFill] and [latFill] for the gap that ends at index [i]. *)
Definition gapFill (fill : string) (trackLons trackLats : list R)
    (i : Z) (lon lat : R) (numFill : nat) : res (list R * list R) :=
  if (fill =? "midpoint")%string then
    lonB <- getitem trackLons (i - 1) ;;
    latB <- getitem trackLats (i - 1) ;;
    Ok (ones_times numFill ((lon + lonB) / 2)%R,
        ones_times numFill ((lat + latB) / 2)%R)
  else if (fill =? "linear")%string then
    lonB <- getitem trackLons (i - 1) ;;
    latB <- getitem trackLats (i - 1) ;;
    Ok (linspace lonB lon numFill, linspace latB lat numFill)
  else if (fill =? "begin")%string then
    lonB <- getitem trackLons (i - 1) ;;
    latB <- getitem trackLats (i - 1) ;;
    Ok (ones_times numFill lonB, ones_times numFill latB)
  else if (fill =? "end")%string then
    Ok (ones_times numFill lon, ones_times numFill lat)
  else Raise (ValueError "Invalid fill type.").

(** Lines 94-124: one iteration of the [for i, step in enumerate(...)]
    loop. *)
Definition fill_body (fill : string) (trackLons trackLats : list R)
    (st : fill_state) (i step : Z) : res fill_state :=
  lon <- getitem trackLons i ;;
  lat <- getitem trackLats i ;;
  st1 <- (if step - prev st >? 1 then
            let stepFill := arange (prev st + 1) step in
            let numFill := length stepFill in
            '(lonFill, latFill) <-
               gapFill fill trackLons trackLats i lon lat numFill ;;
            Ok (mk_fill_state (prev st) (steps st ++ stepFill)
                  (lons st ++ lonFill) (lats st ++ latFill))
          else Ok st) ;;
  Ok (mk_fill_state step (steps st1 ++ [step]) (lons st1 ++ [lon])
        (lats st1 ++ [lat])).

(** The [for] loop over [enumerate(trackSteps)]; [i] is the index of the
    head of [rest]. *)
Fixpoint fill_loop (fill : string) (trackLons trackLats : list R)
    (i : Z) (rest : list Z) (st : fill_state) : res fill_state :=
  match rest with
  | [] => Ok st
  | step :: rest' =>
      st' <- fill_body fill trackLons trackLats st i step ;;
      fill_loop fill trackLons trackLats (i + 1) rest' st'
  end.

Definition fillCoords (trackSteps : list Z) (trackLons trackLats : list R)
    (fill : string) : res (list Z * list R * list R) :=
  prev0 <- getitem trackSteps 0 ;;
  st <- fill_loop fill trackLons trackLats 0 trackSteps
          (mk_fill_state prev0 [] [] []) ;;
  Ok (steps st, lons st, lats st).

(** ** haversine and geodist (src/EddyTracks.py, lines 134-162) *)

Open Scope R_scope.

(** [np.radians]. *)
Definition radians (x : R) : R := x * (PI / 180).

(** [np.arctan2(y, x)]: the angle of the point [(x, y)], in [(-PI, PI]]. *)
Definition arctan2 (y x : R) : R :=
  if Rlt_dec 0 x then atan (y / x)
  else if Rlt_dec x 0 then
         if Rle_dec 0 y then atan (y / x) + PI else atan (y / x) - PI
       else if Rlt_dec 0 y then PI / 2
            else if Rlt_dec y 0 then - (PI / 2)
                 else 0.

(** Line 144: the [a] of the haversine formula, on arguments in degrees.
    It is the quantity whose square root, and the square root of whose
    complement [1 - a], line 145 takes. *)
Definition haversine_a (lon1 lat1 lon2 lat2 : R) : R :=
  let lon1 := radians lon1 in
  let lat1 := radians lat1 in
  let lon2 := radians lon2 in
  let lat2 := radians lat2 in
  let dlon := lon2 - lon1 in
  let dlat := lat2 - lat1 in
  sin (dlat / 2) ^ 2 + cos lat1 * cos lat2 * sin (dlon / 2) ^ 2.

(** Lines 134-146.  [sqrt] is the square root of the reals: the source's
    [np.sqrt] returns NaN on a negative argument, which exact arithmetic
    never gives it here ([0 <= a <= 1]) and [float64] rounding can. *)
Definition haversine (lon1 lat1 lon2 lat2 : R) : R :=
  let R_earth := 6373 in
  let lon1 := radians lon1 in
  let lat1 := radians lat1 in
  let lon2 := radians lon2 in
  let lat2 := radians lat2 in
  let dlon := lon2 - lon1 in
  let dlat := lat2 - lat1 in
  let a := sin (dlat / 2) ^ 2 + cos lat1 * cos lat2 * sin (dlon / 2) ^ 2 in
  let c := 2 * arctan2 (sqrt a) (sqrt (1 - a)) in
  R_earth * c.

(** The loop-carried variables of [geodist].  [prevLon] and [prevLat] are
    not bound before the first iteration ends. *)
Record dist_state : Type := mk_dist_state {
  dist : R;
  prevLon : option R;
  prevLat : option R
}.

(** Reading a local variable that may not be bound yet. *)
Definition read_local {A : Type} (v : option A) : res A :=
  match v with
  | Some x => Ok x
  | None => Raise UnboundLocalError
  end.

(** Lines 156-161: one iteration of [for i in range(len(lons))]. *)
Definition dist_body (lons lats : list R) (st : dist_state) (i : Z)
    : res dist_state :=
  currLon <- getitem lons i ;;
  currLat <- getitem lats i ;;
  d <- (if (i >? 0)%Z then
          pLon <- read_local (prevLon st) ;;
          pLat <- read_local (prevLat st) ;;
          Ok (dist st + haversine pLon pLat currLon currLat)
        else Ok (dist st)) ;;
  Ok (mk_dist_state d (Some currLon) (Some currLat)).

Fixpoint dist_loop (lons lats : list R) (idx : list Z) (st : dist_state)
    : res dist_state :=
  match idx with
  | [] => Ok st
  | i :: idx' =>
      st' <- dist_body lons lats st i ;;
      dist_loop lons lats idx' st'
  end.

(** [range(n)]. *)
Definition range (n : nat) : list Z := map Z.of_nat (seq 0 n).

Definition geodist (lons lats : list R) : res R :=
  if negb (length lons =? length lats)%nat
  then Raise (ValueError "Coordinate lists must have the same length.")
  else
    st <- dist_loop lons lats (range (length lons))
            (mk_dist_state 0 None None) ;;
    Ok (dist st).

(** ** DifferentiateEddies (src/EddyTracks.py, lines 50-72) *)

(** One eddy track: the dictionary of its variables.  The two the code
    reads, ['step'] and ['type'], are fields; [vars] stands for all the
    others.  The eddy type is +1 or -1 in the data and, like the steps,
    integer-valued. *)
Record track (V : Type) : Type := mk_track {
  step : list Z;
  type : list Z;
  vars : V
}.

Arguments mk_track {V} step type vars.
Arguments step {V} t.
Arguments type {V} t.
Arguments vars {V} t.

(** Python's [a and b] on a test [a] and a fallible test [b]: [b] is only
    evaluated when [a] holds. *)
Definition and_then (a : bool) (b : res bool) : res bool :=
  if a then b else Ok false.

(** Lines 65-71: one iteration of [for i, track in enumerate(tracks)]. *)
Definition eddies_body {V : Type} (lifetime : Z)
    (acc : list (track V) * list (track V)) (t : track V)
    : res (list (track V) * list (track V)) :=
  let '(cTracks, aTracks) := acc in
  stepLast <- getitem (step t) (-1) ;;
  stepFirst <- getitem (step t) 0 ;;
  let timesteps := (stepLast - stepFirst + 1)%Z in
  isC <- and_then (timesteps >=? lifetime)%Z
           (ty <- getitem (type t) 0 ;; Ok (ty =? 1)%Z) ;;
  let cTracks := if isC then cTracks ++ [t] else cTracks in
  isA <- and_then (timesteps >=? lifetime)%Z
           (ty <- getitem (type t) 0 ;; Ok (ty =? -1)%Z) ;;
  let aTracks := if isA then aTracks ++ [t] else aTracks in
  Ok (cTracks, aTracks).

Fixpoint eddies_loop {V : Type} (lifetime : Z) (tracks : list (track V))
    (acc : list (track V) * list (track V))
    : res (list (track V) * list (track V)) :=
  match tracks with
  | [] => Ok acc
  | t :: tracks' =>
      acc' <- eddies_body lifetime acc t ;;
      eddies_loop lifetime tracks' acc'
  end.

Definition DifferentiateEddies {V : Type} (tracks : list (track V))
    (lifetime : Z) : res (list (track V) * list (track V)) :=
  eddies_loop lifetime tracks ([], []).

(** The number of time steps a track spans, [step[-1] - step[0] + 1], on
    a track that has steps. *)
Definition timesteps_of {V : Type} (t : track V) : Z :=
  (last (step t) 0 - hd 0 (step t) + 1)%Z.

(** The track is kept as a cyclone ([sign = 1]) or an anticyclone
    ([sign = -1]): it lives long enough and its type is [sign]. *)
Definition kept {V : Type} (lifetime sign : Z) (t : track V) : bool :=
  (timesteps_of t >=? lifetime)%Z && (hd 0 (type t) =? sign)%Z.

(** What [DifferentiateEddies] needs of a track to classify it: a step,
    and a type entry if the track lives long enough for the type to be
    looked at. *)
Definition classifiable {V : Type} (lifetime : Z) (t : track V) : Prop :=
  step t <> [] /\ ((lifetime <= timesteps_of t)%Z -> type t <> []).

(** ** The specification's vocabulary *)

(** The consecutive pairs of a sequence, in order. *)
Fixpoint consecutive {A : Type} (l : list A) : list (A * A) :=
  match l with
  | [] => []
  | a :: t => match t with
              | [] => []
              | b :: _ => (a, b) :: consecutive t
              end
  end.

(** What one consecutive pair of points [((lon1, lat1), (lon2, lat2))]
    adds to the distance so far. *)
Definition add_leg (acc : R) (pq : (R * R) * (R * R)) : R :=
  acc + haversine (fst (fst pq)) (snd (fst pq)) (fst (snd pq)) (snd (snd pq)).

(** The specification's [totalTrackDistance]: the great-circle distances
    of the consecutive pairs of points, added up in input order. *)
Definition totalTrackDistance (lons lats : list R) : R :=
  fold_left add_leg (consecutive (combine lons lats)) 0.

Open Scope Z_scope.

(** [increasing_from p l]: [p < l[0] < l[1] < ...]. *)
Fixpoint increasing_from (p : Z) (l : list Z) : bool :=
  match l with
  | [] => true
  | s :: l' => (p <? s) && increasing_from s l'
  end.

Definition strictly_increasing (l : list Z) : bool :=
  match l with
  | [] => true
  | s :: l' => increasing_from s l'
  end.

(** [max_diff_from d p l]: every difference of consecutive entries of
    [p :: l] is at most [d]. *)
Fixpoint max_diff_from (d p : Z) (l : list Z) : bool :=
  match l with
  | [] => true
  | s :: l' => (s - p <=? d) && max_diff_from d s l'
  end.

(** No consecutive difference of [l] exceeds 1: [fillCoords] sees no gap. *)
Definition no_gaps (l : list Z) : bool :=
  match l with
  | [] => true
  | s :: l' => max_diff_from 1 s l'
  end.

(** No consecutive difference of [l] exceeds 2: every gap of [l] misses
    a single step. *)
Definition single_step_gaps (l : list Z) : bool :=
  match l with
  | [] => true
  | s :: l' => max_diff_from 2 s l'
  end.

(** The precondition of [fillCoords]: at least one point, three sequences
    of one length, strictly increasing steps. *)
Definition valid (trackSteps : list Z) (trackLons trackLats : list R)
    : Prop :=
  trackSteps <> [] /\
  length trackLons = length trackSteps /\
  length trackLats = length trackSteps /\
  strictly_increasing trackSteps = true.

(** The four fill types [fillCoords] knows. *)
Definition recognised (fill : string) : Prop :=
  fill = "midpoint"%string \/ fill = "linear"%string \/
  fill = "begin"%string \/ fill = "end"%string.

(** The entries of an output array [out] that belong to the steps strictly
    between [p] and [s], when [out] is aligned with the dense steps that
    start at [s0]. *)
Definition gap_slice {A : Type} (out : list A) (s0 p s : Z) : list A :=
  firstn (Z.to_nat (s - p - 1)) (skipn (Z.to_nat (p - s0 + 1)) out).

(** * Properties *)

(** ** Indexing and array primitives *)

Lemma getitem_nth {A : Type} (l : list A) (i : Z) (d : A) :
  0 <= i < Z.of_nat (length l) ->
  getitem l i = Ok (nth (Z.to_nat i) l d).
Proof.
  intros Hi. unfold getitem.
  destruct (i <? 0) eqn:Hneg; [apply Z.ltb_lt in Hneg; lia|].
  replace ((0 <=? i) && (i <? Z.of_nat (length l))) with true
    by (symmetry; apply andb_true_iff; split;
        [apply Z.leb_le | apply Z.ltb_lt]; lia).
  destruct (nth_error l (Z.to_nat i)) eqn:Hn.
  - f_equal. symmetry. now apply nth_error_nth.
  - apply nth_error_None in Hn. lia.
Qed.

Lemma getitem_nth_error {A : Type} (l : list A) (n : nat) (x : A) :
  nth_error l n = Some x -> getitem l (Z.of_nat n) = Ok x.
Proof.
  intros Hn.
  assert (Hlt : (n < length l)%nat)
    by (apply nth_error_Some; congruence).
  rewrite (getitem_nth l (Z.of_nat n) x) by lia.
  rewrite Nat2Z.id. f_equal. now apply nth_error_nth.
Qed.

Lemma arange_length (a b : Z) : length (arange a b) = Z.to_nat (b - a).
Proof. unfold arange. now rewrite length_map, length_seq. Qed.

Lemma arange_nil (a b : Z) : b <= a -> arange a b = [].
Proof.
  intros H. unfold arange. replace (Z.to_nat (b - a)) with 0%nat by lia.
  reflexivity.
Qed.

Lemma arange_cons (a b : Z) : a < b -> arange a b = a :: arange (a + 1) b.
Proof.
  intros H. unfold arange.
  replace (Z.to_nat (b - a)) with (S (Z.to_nat (b - (a + 1)))) by lia.
  simpl. rewrite Z.add_0_r. f_equal.
  rewrite <- seq_shift, map_map. apply map_ext. intros k. lia.
Qed.

Lemma map_seq_offset (a : Z) (k n s : nat) :
  map (fun j => a + Z.of_nat j) (seq (s + k) n) =
  map (fun j => a + Z.of_nat k + Z.of_nat j) (seq s n).
Proof.
  revert s. induction n as [|n IH]; intros s; simpl; [reflexivity|].
  f_equal; [lia|]. apply (IH (S s)).
Qed.

Lemma arange_app (a m b : Z) :
  a <= m <= b -> arange a b = arange a m ++ arange m b.
Proof.
  intros H. unfold arange.
  replace (Z.to_nat (b - a)) with (Z.to_nat (m - a) + Z.to_nat (b - m))%nat
    by lia.
  rewrite seq_app, map_app. f_equal.
  rewrite map_seq_offset. apply map_ext. intros j. lia.
Qed.

Lemma arange_In (a b z : Z) : In z (arange a b) <-> a <= z < b.
Proof.
  unfold arange. rewrite in_map_iff. split.
  - intros (k & <- & Hk). apply in_seq in Hk. lia.
  - intros H. exists (Z.to_nat (z - a)). split; [lia|].
    apply in_seq. lia.
Qed.

Lemma increasing_from_arange (p a b : Z) :
  p < a -> increasing_from p (arange a b) = true.
Proof.
  intros Hpa. remember (Z.to_nat (b - a)) as n eqn:Hn.
  revert p a Hpa Hn. induction n as [|n IH]; intros p a Hpa Hn.
  - rewrite arange_nil by lia. reflexivity.
  - rewrite arange_cons by lia. simpl.
    apply andb_true_iff. split; [now apply Z.ltb_lt|].
    apply IH; lia.
Qed.

Lemma ones_times_repeat (n : nat) (v : R) : ones_times n v = repeat v n.
Proof.
  unfold ones_times. induction n as [|n IH]; simpl; [reflexivity|].
  now rewrite IH, Rmult_1_l.
Qed.

Lemma ones_times_length (n : nat) (v : R) : length (ones_times n v) = n.
Proof. unfold ones_times. now rewrite length_map, repeat_length. Qed.

Lemma removelast_len {A : Type} (l : list A) :
  length (removelast l) = pred (length l).
Proof.
  induction l as [|x l IH]; [reflexivity|].
  destruct l as [|y l]; [reflexivity|].
  change (removelast (x :: y :: l)) with (x :: removelast (y :: l)).
  change (S (length (removelast (y :: l))) = pred (length (x :: y :: l))).
  rewrite IH. reflexivity.
Qed.

Lemma set_last_length (y : list R) (v : R) :
  length (set_last y v) = length y.
Proof.
  destruct y as [|x y]; [reflexivity|].
  unfold set_last. rewrite length_app, removelast_len. simpl. lia.
Qed.

Lemma linspace_length (a b : R) (n : nat) : length (linspace a b n) = n.
Proof.
  unfold linspace.
  destruct (1 <? Z.of_nat n); destruct (0 <? Z.of_nat n - 1);
    rewrite ?set_last_length, !length_map, length_seq; reflexivity.
Qed.

(** ** One iteration of the gap-filling loop *)

Section FillLoop.

Variable fill : string.
Variables trackLons trackLats : list R.

Lemma gapFill_lengths (i : Z) (lon lat : R) (n : nat) (lf af : list R) :
  gapFill fill trackLons trackLats i lon lat n = Ok (lf, af) ->
  length lf = n /\ length af = n.
Proof.
  unfold gapFill.
  destruct (fill =? "midpoint")%string;
    [|destruct (fill =? "linear")%string;
      [|destruct (fill =? "begin")%string;
        [|destruct (fill =? "end")%string]]];
    try (destruct (getitem trackLons (i - 1)); simpl; [|discriminate];
         destruct (getitem trackLats (i - 1)); simpl; [|discriminate]);
    intros H; inversion H; subst;
    rewrite ?ones_times_length, ?linspace_length; split; reflexivity.
Qed.

Lemma gapFill_recognised (i : Z) (lon lat : R) (n : nat) :
  recognised fill ->
  1 <= i <= Z.of_nat (length trackLons) ->
  i <= Z.of_nat (length trackLats) ->
  exists lf af, gapFill fill trackLons trackLats i lon lat n = Ok (lf, af).
Proof.
  intros Hrec Hlon Hlat. unfold gapFill.
  rewrite (getitem_nth trackLons (i - 1) 0%R) by lia.
  rewrite (getitem_nth trackLats (i - 1) 0%R) by lia.
  simpl.
  destruct Hrec as [-> | [-> | [-> | ->]]]; simpl; eauto.
Qed.

Lemma gapFill_unknown (i : Z) (lon lat : R) (n : nat) :
  ~ recognised fill ->
  gapFill fill trackLons trackLats i lon lat n =
  Raise (ValueError "Invalid fill type.").
Proof.
  intros Hnot. unfold gapFill, recognised in *.
  destruct (fill =? "midpoint")%string eqn:E1;
    [apply String.eqb_eq in E1; tauto|].
  destruct (fill =? "linear")%string eqn:E2;
    [apply String.eqb_eq in E2; tauto|].
  destruct (fill =? "begin")%string eqn:E3;
    [apply String.eqb_eq in E3; tauto|].
  destruct (fill =? "end")%string eqn:E4;
    [apply String.eqb_eq in E4; tauto|].
  reflexivity.
Qed.

Lemma fill_body_no_gap (st : fill_state) (i step : Z) (lon lat : R) :
  getitem trackLons i = Ok lon ->
  getitem trackLats i = Ok lat ->
  step - prev st <= 1 ->
  fill_body fill trackLons trackLats st i step =
  Ok (mk_fill_state step (steps st ++ [step]) (lons st ++ [lon])
        (lats st ++ [lat])).
Proof.
  intros Hlon Hlat Hle. unfold fill_body. rewrite Hlon, Hlat. simpl.
  destruct (step - prev st >? 1) eqn:Hgt; [|reflexivity].
  apply Z.gtb_lt in Hgt. lia.
Qed.

Lemma fill_body_gap (st : fill_state) (i step : Z) (lon lat : R)
    (r : res (list R * list R)) :
  getitem trackLons i = Ok lon ->
  getitem trackLats i = Ok lat ->
  step - prev st > 1 ->
  gapFill fill trackLons trackLats i lon lat
    (Z.to_nat (step - prev st - 1)) = r ->
  fill_body fill trackLons trackLats st i step =
  match r with
  | Ok (lf, af) =>
      Ok (mk_fill_state step (steps st ++ arange (prev st + 1) step ++ [step])
            (lons st ++ lf ++ [lon]) (lats st ++ af ++ [lat]))
  | Raise e => Raise e
  end.
Proof.
  intros Hlon Hlat Hgt Hgap. unfold fill_body. rewrite Hlon, Hlat. simpl.
  destruct (step - prev st >? 1) eqn:Hb;
    [|rewrite Z.gtb_ltb in Hb; apply Z.ltb_ge in Hb; lia].
  rewrite arange_length.
  replace (Z.to_nat (step - (prev st + 1)))
    with (Z.to_nat (step - prev st - 1)) by lia.
  rewrite Hgap. destruct r as [[lf af]|e]; simpl; [|reflexivity].
  now rewrite <- !app_assoc.
Qed.

(** One iteration on a strictly later step, whatever the size of the
    jump: the block it appends is the synthesized part followed by the
    point itself. *)
Lemma fill_body_dense (st : fill_state) (i step : Z) :
  recognised fill ->
  1 <= i < Z.of_nat (length trackLons) ->
  i < Z.of_nat (length trackLats) ->
  prev st < step ->
  exists lf af,
    fill_body fill trackLons trackLats st i step =
    Ok (mk_fill_state step
          (steps st ++ arange (prev st + 1) step ++ [step])
          (lons st ++ lf ++ [nth (Z.to_nat i) trackLons 0%R])
          (lats st ++ af ++ [nth (Z.to_nat i) trackLats 0%R])) /\
    length lf = Z.to_nat (step - prev st - 1) /\
    length af = Z.to_nat (step - prev st - 1) /\
    (step - prev st > 1 ->
     gapFill fill trackLons trackLats i (nth (Z.to_nat i) trackLons 0%R)
       (nth (Z.to_nat i) trackLats 0%R) (Z.to_nat (step - prev st - 1)) =
     Ok (lf, af)).
Proof.
  intros Hrec Hlon Hlat Hlt.
  pose proof (getitem_nth trackLons i 0%R ltac:(lia)) as Glon.
  pose proof (getitem_nth trackLats i 0%R ltac:(lia)) as Glat.
  destruct (Z_gt_le_dec (step - prev st) 1) as [Hgap | Hno].
  - destruct (gapFill_recognised i (nth (Z.to_nat i) trackLons 0%R)
                (nth (Z.to_nat i) trackLats 0%R)
                (Z.to_nat (step - prev st - 1)) Hrec ltac:(lia) ltac:(lia))
      as (lf & af & Hg).
    exists lf, af.
    rewrite (fill_body_gap st i step _ _ _ Glon Glat Hgap Hg).
    destruct (gapFill_lengths _ _ _ _ _ _ Hg) as [Hl Ha].
    repeat split; auto.
  - exists [], [].
    rewrite (fill_body_no_gap st i step _ _ Glon Glat Hno).
    rewrite arange_nil by lia. simpl.
    repeat split; try lia.
Qed.

Lemma last_cons {A : Type} (x : A) (l : list A) (d : A) :
  last (x :: l) d = last l x.
Proof.
  revert x d. induction l as [|y l IH]; intros x d; [reflexivity|].
  change (last (x :: y :: l) d) with (last (y :: l) d).
  rewrite (IH y d). symmetry. apply IH.
Qed.

Lemma increasing_from_nth (p : Z) (l : list Z) (j : nat) (q : Z) :
  increasing_from p l = true -> nth_error (p :: l) j = Some q -> p <= q.
Proof.
  revert p j. induction l as [|s l IH]; intros p j Hinc Hn.
  - destruct j as [|[|j]]; simpl in Hn; inversion Hn; lia.
  - simpl in Hinc. apply andb_true_iff in Hinc. destruct Hinc as [Hps Hinc].
    apply Z.ltb_lt in Hps.
    destruct j as [|j]; simpl in Hn; [inversion Hn; lia|].
    specialize (IH s j Hinc Hn). lia.
Qed.

Lemma increasing_from_last (p : Z) (l : list Z) :
  increasing_from p l = true -> p <= last l p.
Proof.
  revert p. induction l as [|s l IH]; intros p Hinc; [simpl; lia|].
  simpl in Hinc. apply andb_true_iff in Hinc. destruct Hinc as [Hps Hinc].
  apply Z.ltb_lt in Hps. rewrite last_cons. specialize (IH s Hinc). lia.
Qed.

(** ** The whole loop on strictly increasing steps *)

Lemma fill_loop_dense (rest : list Z) :
  forall (i : Z) (st : fill_state),
    recognised fill ->
    1 <= i ->
    i + Z.of_nat (length rest) <= Z.of_nat (length trackLons) ->
    i + Z.of_nat (length rest) <= Z.of_nat (length trackLats) ->
    increasing_from (prev st) rest = true ->
    exists out bl ba,
      fill_loop fill trackLons trackLats i rest st = Ok out /\
      steps out =
        steps st ++ arange (prev st + 1) (last rest (prev st) + 1) /\
      lons out = lons st ++ bl /\
      lats out = lats st ++ ba /\
      length bl = Z.to_nat (last rest (prev st) - prev st) /\
      length ba = Z.to_nat (last rest (prev st) - prev st).
Proof.
  induction rest as [|s rest IH]; intros i st Hrec Hi Hlon Hlat Hinc.
  - exists st, [], []. simpl. rewrite arange_nil by lia.
    rewrite !app_nil_r, Z.sub_diag. repeat split; reflexivity.
  - simpl in Hinc. apply andb_true_iff in Hinc. destruct Hinc as [Hps Hinc].
    apply Z.ltb_lt in Hps. simpl length in Hlon, Hlat.
    destruct (fill_body_dense st i s Hrec ltac:(lia) ltac:(lia) Hps)
      as (lf & af & Hbody & Hlf & Haf & _).
    rewrite !last_cons. cbn [fill_loop]. rewrite Hbody. cbn [bind].
    set (st' := mk_fill_state s _ _ _) in *.
    destruct (IH (i + 1) st' Hrec ltac:(lia) ltac:(lia) ltac:(lia) Hinc)
      as (out & bl & ba & Hloop & Hs & Hl & Ha & Hbl & Hba).
    exists out, (lf ++ [nth (Z.to_nat i) trackLons 0%R] ++ bl),
      (af ++ [nth (Z.to_nat i) trackLats 0%R] ++ ba).
    pose proof (increasing_from_last s rest Hinc) as Hlast.
    subst st'. cbn [prev steps lons lats] in *.
    repeat split.
    + exact Hloop.
    + rewrite Hs, <- !app_assoc. f_equal.
      rewrite (arange_app (prev st + 1) s (last rest s + 1)) by lia.
      f_equal. rewrite (arange_cons s) by lia. reflexivity.
    + rewrite Hl, <- !app_assoc. reflexivity.
    + rewrite Ha, <- !app_assoc. reflexivity.
    + rewrite !length_app, Hlf, Hbl. simpl. lia.
    + rewrite !length_app, Haf, Hba. simpl. lia.
Qed.

Lemma firstn_skipn_mid {A : Type} (a b c : list A) (k n : nat) :
  length a = k -> length b = n -> firstn n (skipn k (a ++ b ++ c)) = b.
Proof.
  intros <- <-.
  rewrite skipn_app, skipn_all, Nat.sub_diag. simpl.
  rewrite firstn_app, Nat.sub_diag, firstn_all. simpl. apply app_nil_r.
Qed.

(** Where the fill arrays of a gap end up in the output of the loop. *)
Lemma fill_loop_slice (rest : list Z) :
  forall (i : Z) (st out : fill_state) (j : nat) (p s : Z)
         (lf af : list R),
    recognised fill ->
    1 <= i ->
    i + Z.of_nat (length rest) <= Z.of_nat (length trackLons) ->
    i + Z.of_nat (length rest) <= Z.of_nat (length trackLats) ->
    increasing_from (prev st) rest = true ->
    fill_loop fill trackLons trackLats i rest st = Ok out ->
    nth_error (prev st :: rest) j = Some p ->
    nth_error rest j = Some s ->
    s - p > 1 ->
    gapFill fill trackLons trackLats (i + Z.of_nat j)
      (nth (Z.to_nat (i + Z.of_nat j)) trackLons 0%R)
      (nth (Z.to_nat (i + Z.of_nat j)) trackLats 0%R)
      (Z.to_nat (s - p - 1)) = Ok (lf, af) ->
    firstn (Z.to_nat (s - p - 1))
      (skipn (length (lons st) + Z.to_nat (p - prev st)) (lons out)) = lf /\
    firstn (Z.to_nat (s - p - 1))
      (skipn (length (lats st) + Z.to_nat (p - prev st)) (lats out)) = af.
Proof.
  induction rest as [|s1 rest IH];
    intros i st out j p s lf af Hrec Hi Hlon Hlat Hinc Hloop Hp Hs Hgt Hg.
  - destruct j; discriminate.
  - simpl in Hinc. apply andb_true_iff in Hinc. destruct Hinc as [Hps Hinc].
    apply Z.ltb_lt in Hps. simpl length in Hlon, Hlat.
    destruct (fill_body_dense st i s1 Hrec ltac:(lia) ltac:(lia) Hps)
      as (lf1 & af1 & Hbody & Hlf1 & Haf1 & Hgap1).
    cbn [fill_loop] in Hloop. rewrite Hbody in Hloop. cbn [bind] in Hloop.
    set (st' := mk_fill_state s1 _ _ _) in *.
    destruct j as [|j].
    + simpl in Hp, Hs. inversion Hp; inversion Hs; subst p s. clear Hp Hs.
      rewrite Z.add_0_r in Hg. rewrite (Hgap1 Hgt) in Hg.
      inversion Hg; subst lf1 af1. clear Hg.
      destruct (fill_loop_dense rest (i + 1) st' Hrec ltac:(lia) ltac:(lia)
                  ltac:(lia) Hinc)
        as (out' & bl & ba & Hloop' & _ & Hl & Ha & _).
      rewrite Hloop in Hloop'. inversion Hloop'; subst out'. clear Hloop'.
      rewrite Hl, Ha. subst st'. cbn [lons lats].
      rewrite Z.sub_diag, <- !app_assoc. simpl Z.to_nat at 2 4.
      rewrite Nat.add_0_r.
      split; apply firstn_skipn_mid; auto.
    + simpl in Hp, Hs.
      pose proof (increasing_from_nth s1 rest j p Hinc Hp) as Hle.
      replace (i + Z.of_nat (S j)) with (i + 1 + Z.of_nat j) in Hg by lia.
      destruct (IH (i + 1) st' out j p s lf af Hrec ltac:(lia) ltac:(lia)
                  ltac:(lia) Hinc Hloop Hp Hs Hgt Hg) as [HL HA].
      subst st'. cbn [prev lons lats] in HL, HA.
      rewrite !length_app in HL, HA. simpl length in HL, HA.
      rewrite Hlf1 in HL. rewrite Haf1 in HA.
      replace (length (lons st) + Z.to_nat (p - prev st))%nat
        with (length (lons st) + (Z.to_nat (s1 - prev st - 1) + 1)
              + Z.to_nat (p - s1))%nat by lia.
      replace (length (lats st) + Z.to_nat (p - prev st))%nat
        with (length (lats st) + (Z.to_nat (s1 - prev st - 1) + 1)
              + Z.to_nat (p - s1))%nat by lia.
      split; assumption.
Qed.

(** ** The loop on steps without a gap *)

Lemma firstn_skipn_S {A : Type} (l : list A) (n k : nat) (d : A) :
  (n < length l)%nat ->
  firstn (S k) (skipn n l) = nth n l d :: firstn k (skipn (S n) l).
Proof.
  revert n. induction l as [|x l IH]; intros n Hn; [simpl in Hn; lia|].
  destruct n as [|n]; [reflexivity|].
  simpl in Hn. apply (IH n). lia.
Qed.

Lemma fill_loop_no_gaps (rest : list Z) :
  forall (i : Z) (st : fill_state),
    0 <= i ->
    i + Z.of_nat (length rest) <= Z.of_nat (length trackLons) ->
    i + Z.of_nat (length rest) <= Z.of_nat (length trackLats) ->
    max_diff_from 1 (prev st) rest = true ->
    fill_loop fill trackLons trackLats i rest st =
    Ok (mk_fill_state (last rest (prev st)) (steps st ++ rest)
          (lons st ++ firstn (length rest) (skipn (Z.to_nat i) trackLons))
          (lats st ++ firstn (length rest) (skipn (Z.to_nat i) trackLats))).
Proof.
  induction rest as [|s rest IH]; intros i st Hi Hlon Hlat Hdiff.
  - simpl. rewrite !app_nil_r. now destruct st.
  - simpl in Hdiff. apply andb_true_iff in Hdiff.
    destruct Hdiff as [Hle Hdiff]. apply Z.leb_le in Hle.
    simpl length in Hlon, Hlat.
    pose proof (getitem_nth trackLons i 0%R ltac:(lia)) as Glon.
    pose proof (getitem_nth trackLats i 0%R ltac:(lia)) as Glat.
    rewrite last_cons. cbn [fill_loop].
    rewrite (fill_body_no_gap st i s _ _ Glon Glat Hle). cbn [bind].
    rewrite IH; cbn [prev steps lons lats]; try lia; [|exact Hdiff].
    replace (Z.to_nat (i + 1)) with (S (Z.to_nat i)) by lia.
    simpl length.
    rewrite (firstn_skipn_S trackLons (Z.to_nat i) _ 0%R) by lia.
    rewrite (firstn_skipn_S trackLats (Z.to_nat i) _ 0%R) by lia.
    rewrite <- !app_assoc. reflexivity.
Qed.

(** ** The loop with an unknown fill type *)

(** The first jump of more than one step reaches the final [else] of the
    chain on [fill]. *)
Lemma fill_loop_unknown (rest : list Z) :
  forall (i : Z) (st : fill_state),
    ~ recognised fill ->
    0 <= i ->
    i + Z.of_nat (length rest) <= Z.of_nat (length trackLons) ->
    i + Z.of_nat (length rest) <= Z.of_nat (length trackLats) ->
    max_diff_from 1 (prev st) rest = false ->
    fill_loop fill trackLons trackLats i rest st =
    Raise (ValueError "Invalid fill type.").
Proof.
  induction rest as [|s rest IH]; intros i st Hnot Hi Hlon Hlat Hdiff.
  - discriminate.
  - simpl in Hdiff. simpl length in Hlon, Hlat.
    pose proof (getitem_nth trackLons i 0%R ltac:(lia)) as Glon.
    pose proof (getitem_nth trackLats i 0%R ltac:(lia)) as Glat.
    cbn [fill_loop].
    destruct (s - prev st <=? 1) eqn:Hle.
    + apply Z.leb_le in Hle. simpl in Hdiff.
      rewrite (fill_body_no_gap st i s _ _ Glon Glat Hle). cbn [bind].
      apply IH; cbn [prev]; try lia; assumption.
    + apply Z.leb_gt in Hle.
      rewrite (fill_body_gap st i s _ _ _ Glon Glat ltac:(lia) eq_refl).
      rewrite gapFill_unknown by assumption. reflexivity.
Qed.

End FillLoop.

(** ** fillCoords as a whole *)

Lemma valid_cons (trackSteps : list Z) (trackLons trackLats : list R) :
  valid trackSteps trackLons trackLats ->
  exists s0 t,
    trackSteps = s0 :: t /\
    Z.of_nat (length trackLons) = 1 + Z.of_nat (length t) /\
    Z.of_nat (length trackLats) = 1 + Z.of_nat (length t) /\
    increasing_from s0 t = true.
Proof.
  intros (Hne & Hlon & Hlat & Hinc).
  destruct trackSteps as [|s0 t]; [congruence|].
  exists s0, t. simpl length in *. simpl in Hinc.
  repeat split; try lia; assumption.
Qed.

(** The first iteration compares the first step with itself, so the loop
    proper starts at index 1 with the first point emitted. *)
Lemma fillCoords_unfold (s0 : Z) (t : list Z) (trackLons trackLats : list R)
    (fill : string) :
  0 < Z.of_nat (length trackLons) ->
  0 < Z.of_nat (length trackLats) ->
  fillCoords (s0 :: t) trackLons trackLats fill =
  (st <- fill_loop fill trackLons trackLats 1 t
           (mk_fill_state s0 [s0] [nth 0 trackLons 0%R]
              [nth 0 trackLats 0%R]) ;;
   Ok (steps st, lons st, lats st)).
Proof.
  intros Hlon Hlat. unfold fillCoords.
  rewrite (getitem_nth (s0 :: t) 0 0) by (simpl length; lia).
  cbn [bind Z.to_nat nth fill_loop].
  rewrite (fill_body_no_gap fill trackLons trackLats _ 0 s0
             (nth 0 trackLons 0%R) (nth 0 trackLats 0%R));
    [reflexivity | | | cbn [prev]; lia].
  - now rewrite (getitem_nth trackLons 0 0%R) by lia.
  - now rewrite (getitem_nth trackLats 0 0%R) by lia.
Qed.

(** Without a jump of more than one step the loop never looks at [fill]:
    the result is the input, whatever the fill type. *)
Lemma fillCoords_no_gaps (trackSteps : list Z) (trackLons trackLats : list R)
    (fill : string) :
  trackSteps <> [] ->
  length trackLons = length trackSteps ->
  length trackLats = length trackSteps ->
  no_gaps trackSteps = true ->
  fillCoords trackSteps trackLons trackLats fill =
  Ok (trackSteps, trackLons, trackLats).
Proof.
  intros Hne Hlon Hlat Hno.
  destruct trackSteps as [|s0 t]; [congruence|].
  unfold fillCoords.
  rewrite (getitem_nth (s0 :: t) 0 0) by (simpl length; lia).
  cbn [bind Z.to_nat nth].
  rewrite fill_loop_no_gaps; cbn [prev]; try lia.
  - cbn [bind steps lons lats Z.to_nat skipn app].
    rewrite <- Hlon at 1. rewrite <- Hlat. now rewrite !firstn_all.
  - simpl. unfold no_gaps in Hno.
    replace (s0 - s0 <=? 1) with true by (symmetry; apply Z.leb_le; lia).
    exact Hno.
Qed.

(** C8.  Gap-filling a sequence without gaps returns it unchanged: for a
    valid input in which no two consecutive steps are more than one apart,
    [fillCoords] returns the three input sequences as they are, whatever
    the fill type. *)
Theorem fillCoords_no_gaps_unchanged (trackSteps : list Z)
    (trackLons trackLats : list R) (fill : string) :
  valid trackSteps trackLons trackLats ->
  no_gaps trackSteps = true ->
  fillCoords trackSteps trackLons trackLats fill =
  Ok (trackSteps, trackLons, trackLats).
Proof.
  intros (Hne & Hlon & Hlat & _) Hno. now apply fillCoords_no_gaps.
Qed.

Lemma fillCoords_no_gaps_unchanged_witness :
  valid [4; 5; 6] [1; 2; 3]%R [7; 8; 9]%R /\
  no_gaps [4; 5; 6] = true /\
  fillCoords [4; 5; 6] [1; 2; 3]%R [7; 8; 9]%R "linear" =
  Ok ([4; 5; 6], [1; 2; 3]%R, [7; 8; 9]%R).
Proof.
  assert (Hv : valid [4; 5; 6] [1; 2; 3]%R [7; 8; 9]%R)
    by (repeat split; [discriminate]).
  split; [exact Hv|]. split; [reflexivity|].
  apply (fillCoords_no_gaps_unchanged [4; 5; 6] [1; 2; 3]%R [7; 8; 9]%R
           "linear" Hv eq_refl).
Defined.

(** C9.  On a valid input without gaps the fill type is never inspected:
    any two fill types, recognised or not, give the same result, and that
    result is a normal return, not an exception. *)
Theorem fillCoords_no_gaps_mode_independent (trackSteps : list Z)
    (trackLons trackLats : list R) (fill1 fill2 : string) :
  valid trackSteps trackLons trackLats ->
  no_gaps trackSteps = true ->
  fillCoords trackSteps trackLons trackLats fill1 =
  fillCoords trackSteps trackLons trackLats fill2 /\
  exists out, fillCoords trackSteps trackLons trackLats fill1 = Ok out.
Proof.
  intros (Hne & Hlon & Hlat & _) Hno.
  rewrite !fillCoords_no_gaps by assumption. split; [reflexivity|].
  now exists (trackSteps, trackLons, trackLats).
Qed.

Lemma fillCoords_no_gaps_mode_independent_witness :
  valid [4; 5; 6] [1; 2; 3]%R [7; 8; 9]%R /\
  no_gaps [4; 5; 6] = true /\
  fillCoords [4; 5; 6] [1; 2; 3]%R [7; 8; 9]%R "begin" =
  fillCoords [4; 5; 6] [1; 2; 3]%R [7; 8; 9]%R "nearest".
Proof.
  assert (Hv : valid [4; 5; 6] [1; 2; 3]%R [7; 8; 9]%R)
    by (repeat split; [discriminate]).
  split; [exact Hv|]. split; [reflexivity|].
  apply (fillCoords_no_gaps_mode_independent [4; 5; 6] [1; 2; 3]%R
           [7; 8; 9]%R "begin" "nearest" Hv eq_refl).
Defined.

Lemma nearest_not_recognised : ~ recognised "nearest".
Proof. intros [H | [H | [H | H]]]; discriminate. Qed.

(** C2.  What the code does with an unknown fill type when the input has
    no gap: on the valid input [steps = [1, 2]] the fill type 'nearest',
    which is none of 'midpoint', 'linear', 'begin', 'end', is never looked
    at, no [ValueError] is raised and the input is returned. *)
Theorem fillCoords_unknown_fill_no_gap_example :
  fillCoords [1; 2] [10; 20]%R [30; 40]%R "nearest" =
  Ok ([1; 2], [10; 20]%R, [30; 40]%R).
Proof.
  apply fillCoords_no_gaps; [discriminate | reflexivity ..].
Qed.

(** X19.  For a valid input that has at least one gap (two consecutive
    steps more than one apart) and a fill type other than 'midpoint',
    'linear', 'begin' and 'end', [fillCoords] raises
    [ValueError('Invalid fill type.')]; a raised call has no output. *)
Theorem fillCoords_unknown_fill_with_gap (trackSteps : list Z)
    (trackLons trackLats : list R) (fill : string) :
  valid trackSteps trackLons trackLats ->
  no_gaps trackSteps = false ->
  ~ recognised fill ->
  fillCoords trackSteps trackLons trackLats fill =
  Raise (ValueError "Invalid fill type.").
Proof.
  intros Hv Hgap Hnot.
  destruct (valid_cons _ _ _ Hv) as (s0 & t & -> & Hlon & Hlat & Hinc).
  rewrite fillCoords_unfold by lia.
  rewrite fill_loop_unknown; cbn [prev]; try lia; [reflexivity | assumption |].
  exact Hgap.
Qed.

Lemma fillCoords_unknown_fill_with_gap_witness :
  valid [2; 5] [0; 3]%R [0; 0]%R /\
  no_gaps [2; 5] = false /\
  ~ recognised "nearest" /\
  fillCoords [2; 5] [0; 3]%R [0; 0]%R "nearest" =
  Raise (ValueError "Invalid fill type.").
Proof.
  assert (Hv : valid [2; 5] [0; 3]%R [0; 0]%R)
    by (repeat split; [discriminate]).
  split; [exact Hv|]. split; [reflexivity|].
  split; [exact nearest_not_recognised|].
  apply (fillCoords_unknown_fill_with_gap [2; 5] [0; 3]%R [0; 0]%R
           "nearest" Hv eq_refl nearest_not_recognised).
Defined.

Lemma increasing_from_nth_last (p : Z) (l : list Z) (j : nat) (q : Z) :
  increasing_from p l = true -> nth_error (p :: l) j = Some q ->
  q <= last l p.
Proof.
  revert p j. induction l as [|s l IH]; intros p j Hinc Hn.
  - destruct j as [|[|j]]; simpl in Hn; inversion Hn. simpl. lia.
  - destruct j as [|j].
    + simpl in Hn. inversion Hn; subst q. now apply increasing_from_last.
    + simpl in Hinc. apply andb_true_iff in Hinc. destruct Hinc as [_ Hinc].
      rewrite last_cons. exact (IH s j Hinc Hn).
Qed.

Lemma gap_slice_arange (s0 e p s : Z) :
  s0 <= p -> p + 1 <= s -> s <= e ->
  gap_slice (arange s0 e) s0 p s = arange (p + 1) s.
Proof.
  intros H1 H2 H3. unfold gap_slice.
  rewrite (arange_app s0 (p + 1) e) by lia.
  rewrite (arange_app (p + 1) s e) by lia.
  apply firstn_skipn_mid; rewrite arange_length; lia.
Qed.

Lemma arange_NoDup (a b : Z) : NoDup (arange a b).
Proof.
  unfold arange. apply Injective_map_NoDup.
  - intros x y Hxy. lia.
  - apply seq_NoDup.
Qed.

(** The output on a valid input and a recognised fill type. *)
Lemma fillCoords_dense_out (trackSteps : list Z)
    (trackLons trackLats : list R) (fill : string) :
  valid trackSteps trackLons trackLats ->
  recognised fill ->
  exists os ol oa,
    fillCoords trackSteps trackLons trackLats fill = Ok (os, ol, oa) /\
    os = arange (hd 0 trackSteps) (last trackSteps 0 + 1) /\
    length ol = length os /\
    length oa = length os.
Proof.
  intros Hv Hrec.
  destruct (valid_cons _ _ _ Hv) as (s0 & t & -> & Hlon & Hlat & Hinc).
  rewrite fillCoords_unfold by lia.
  destruct (fill_loop_dense fill trackLons trackLats t 1
              (mk_fill_state s0 [s0] [nth 0 trackLons 0%R]
                 [nth 0 trackLats 0%R]) Hrec ltac:(lia) ltac:(lia) ltac:(lia)
              Hinc)
    as (out & bl & ba & Hloop & Hs & Hl & Ha & Hbl & Hba).
  cbn [prev steps lons lats] in *.
  pose proof (increasing_from_last s0 t Hinc) as Hlast.
  rewrite Hloop. cbn [bind hd]. rewrite last_cons.
  exists (steps out), (lons out), (lats out).
  assert (Hos : steps out = arange s0 (last t s0 + 1))
    by (rewrite Hs, (arange_cons s0) by lia; reflexivity).
  split; [reflexivity|]. split; [exact Hos|].
  rewrite Hos, Hl, Ha, arange_length, !length_app, Hbl, Hba.
  simpl length. split; lia.
Qed.

(** The output between the two end points of a gap. *)
Lemma fillCoords_gap (trackSteps : list Z) (trackLons trackLats : list R)
    (fill : string) (i : nat) (p s : Z) :
  valid trackSteps trackLons trackLats ->
  recognised fill ->
  nth_error trackSteps i = Some p ->
  nth_error trackSteps (S i) = Some s ->
  s - p > 1 ->
  exists os ol oa lf af,
    fillCoords trackSteps trackLons trackLats fill = Ok (os, ol, oa) /\
    gapFill fill trackLons trackLats (Z.of_nat (S i))
      (nth (S i) trackLons 0%R) (nth (S i) trackLats 0%R)
      (Z.to_nat (s - p - 1)) = Ok (lf, af) /\
    gap_slice os (hd 0 trackSteps) p s = arange (p + 1) s /\
    gap_slice ol (hd 0 trackSteps) p s = lf /\
    gap_slice oa (hd 0 trackSteps) p s = af.
Proof.
  intros Hv Hrec Hp Hs Hgt.
  destruct (fillCoords_dense_out _ _ _ fill Hv Hrec)
    as (os & ol & oa & Hfc & Hos & _).
  destruct (valid_cons _ _ _ Hv) as (s0 & t & -> & Hlon & Hlat & Hinc).
  assert (Hi : (S i < length (s0 :: t))%nat)
    by (apply nth_error_Some; congruence).
  simpl length in Hi.
  destruct (gapFill_recognised fill trackLons trackLats (Z.of_nat (S i))
              (nth (S i) trackLons 0%R) (nth (S i) trackLats 0%R)
              (Z.to_nat (s - p - 1)) Hrec ltac:(lia) ltac:(lia))
    as (lf & af & Hg).
  exists os, ol, oa, lf, af.
  pose proof (increasing_from_nth s0 t i p Hinc Hp) as Hsp.
  pose proof (increasing_from_nth_last s0 t (S i) s Hinc Hs) as Hsl.
  cbn [hd] in *. rewrite last_cons in Hos.
  split; [exact Hfc|]. split; [exact Hg|].
  split; [rewrite Hos; apply gap_slice_arange; lia|].
  rewrite fillCoords_unfold in Hfc by lia.
  destruct (fill_loop fill trackLons trackLats 1 t _) as [out|e] eqn:Hloop;
    [|discriminate].
  cbn [bind] in Hfc. inversion Hfc; subst os ol oa. clear Hfc.
  unfold gap_slice.
  replace (Z.to_nat (p - s0 + 1)) with (1 + Z.to_nat (p - s0))%nat by lia.
  apply (fill_loop_slice fill trackLons trackLats t 1
           (mk_fill_state s0 [s0] [nth 0 trackLons 0%R]
              [nth 0 trackLats 0%R]) out i p s lf af Hrec);
    cbn [prev]; try lia; try assumption.
  replace (1 + Z.of_nat i) with (Z.of_nat (S i)) by lia.
  rewrite Nat2Z.id. exact Hg.
Qed.

(** ** np.linspace *)

Lemma set_last_snoc (l : list R) (x v : R) :
  set_last (l ++ [x]) v = l ++ [v].
Proof.
  unfold set_last. destruct (l ++ [x]) eqn:E.
  - now destruct l.
  - rewrite <- E. now rewrite removelast_last.
Qed.

Lemma linspace_one (a b : R) : linspace a b 1 = [a].
Proof. unfold linspace. simpl. f_equal. ring. Qed.

(** From two samples on, the samples before the last are computed from
    the step and the last one is [stop] itself. *)
Lemma linspace_eq (a b : R) (n : nat) :
  (2 <= n)%nat ->
  linspace a b n =
  map (fun j => (a + INR j * ((b - a) / INR (n - 1)))%R) (seq 0 (n - 1))
  ++ [b].
Proof.
  intros Hn. unfold linspace.
  replace (0 <? Z.of_nat n - 1) with true by (symmetry; apply Z.ltb_lt; lia).
  replace (1 <? Z.of_nat n) with true by (symmetry; apply Z.ltb_lt; lia).
  replace (IZR (Z.of_nat n - 1)) with (INR (n - 1))
    by (rewrite INR_IZR_INZ; f_equal; lia).
  destruct n as [|m]; [lia|].
  replace (S m - 1)%nat with m by lia.
  rewrite seq_S, !map_app. cbn [map]. rewrite set_last_snoc. f_equal.
  rewrite !map_map. apply map_ext. intros j. ring.
Qed.

Lemma linspace_nth (a b : R) (n k : nat) :
  (2 <= n)%nat -> (k < n)%nat ->
  nth k (linspace a b n) 0%R = (a + INR k * ((b - a) / INR (n - 1)))%R.
Proof.
  intros Hn Hk. rewrite linspace_eq by assumption.
  set (g := fun j => (a + INR j * ((b - a) / INR (n - 1)))%R).
  destruct (Nat.eq_dec k (n - 1)) as [-> | Hne].
  - rewrite app_nth2; rewrite length_map, length_seq; [|lia].
    rewrite Nat.sub_diag. simpl.
    assert (INR (n - 1) <> 0%R) by (apply not_0_INR; lia).
    field. assumption.
  - rewrite app_nth1 by (rewrite length_map, length_seq; lia).
    rewrite (nth_indep _ 0%R (g 0%nat))
      by (rewrite length_map, length_seq; lia).
    rewrite map_nth, seq_nth by lia. reflexivity.
Qed.

Lemma linspace_ends (a b : R) (n : nat) :
  (2 <= n)%nat ->
  hd 0%R (linspace a b n) = a /\ last (linspace a b n) 0%R = b.
Proof.
  intros Hn. split.
  - pose proof (linspace_nth a b n 0 Hn ltac:(lia)) as H0.
    destruct (linspace a b n); simpl in *; rewrite H0; ring.
  - rewrite linspace_eq by assumption. apply last_last.
Qed.

(** ** The values that fill a gap *)

Section GapValues.

Variables trackLons trackLats : list R.
Variables (i : nat) (lonB lon latB lat : R).
Hypothesis HlonB : nth_error trackLons i = Some lonB.
Hypothesis HlatB : nth_error trackLats i = Some latB.

Lemma getitem_before_lon :
  getitem trackLons (Z.of_nat (S i) - 1) = Ok lonB.
Proof.
  replace (Z.of_nat (S i) - 1) with (Z.of_nat i) by lia.
  now apply getitem_nth_error.
Qed.

Lemma getitem_before_lat :
  getitem trackLats (Z.of_nat (S i) - 1) = Ok latB.
Proof.
  replace (Z.of_nat (S i) - 1) with (Z.of_nat i) by lia.
  now apply getitem_nth_error.
Qed.

Lemma gapFill_midpoint (n : nat) :
  gapFill "midpoint" trackLons trackLats (Z.of_nat (S i)) lon lat n =
  Ok (repeat ((lon + lonB) / 2)%R n, repeat ((lat + latB) / 2)%R n).
Proof.
  unfold gapFill. cbn [String.eqb Ascii.eqb Bool.eqb].
  rewrite getitem_before_lon, getitem_before_lat. cbn [bind].
  now rewrite !ones_times_repeat.
Qed.

Lemma gapFill_linear (n : nat) :
  gapFill "linear" trackLons trackLats (Z.of_nat (S i)) lon lat n =
  Ok (linspace lonB lon n, linspace latB lat n).
Proof.
  unfold gapFill. cbn [String.eqb Ascii.eqb Bool.eqb].
  rewrite getitem_before_lon, getitem_before_lat. reflexivity.
Qed.

Lemma gapFill_begin (n : nat) :
  gapFill "begin" trackLons trackLats (Z.of_nat (S i)) lon lat n =
  Ok (repeat lonB n, repeat latB n).
Proof.
  unfold gapFill. cbn [String.eqb Ascii.eqb Bool.eqb].
  rewrite getitem_before_lon, getitem_before_lat. cbn [bind].
  now rewrite !ones_times_repeat.
Qed.

Lemma gapFill_end (n : nat) :
  gapFill "end" trackLons trackLats (Z.of_nat (S i)) lon lat n =
  Ok (repeat lon n, repeat lat n).
Proof.
  unfold gapFill. cbn [String.eqb Ascii.eqb Bool.eqb].
  now rewrite !ones_times_repeat.
Qed.

End GapValues.

Lemma fillCoords_gap_values (trackSteps : list Z)
    (trackLons trackLats : list R) (fill : string) (i : nat) (p s : Z)
    (lon lat : R) (lf af : list R) :
  valid trackSteps trackLons trackLats ->
  recognised fill ->
  nth_error trackSteps i = Some p ->
  nth_error trackSteps (S i) = Some s ->
  s - p > 1 ->
  nth_error trackLons (S i) = Some lon ->
  nth_error trackLats (S i) = Some lat ->
  gapFill fill trackLons trackLats (Z.of_nat (S i)) lon lat
    (Z.to_nat (s - p - 1)) = Ok (lf, af) ->
  exists os ol oa,
    fillCoords trackSteps trackLons trackLats fill = Ok (os, ol, oa) /\
    gap_slice ol (hd 0 trackSteps) p s = lf /\
    gap_slice oa (hd 0 trackSteps) p s = af.
Proof.
  intros Hv Hrec Hp Hs Hgt Hlon Hlat Hg.
  destruct (fillCoords_gap _ _ _ fill i p s Hv Hrec Hp Hs Hgt)
    as (os & ol & oa & lf' & af' & Hfc & Hg' & _ & Hl & Ha).
  rewrite (nth_error_nth _ _ 0%R Hlon), (nth_error_nth _ _ 0%R Hlat) in Hg'.
  rewrite Hg in Hg'. inversion Hg'; subst lf' af'.
  now exists os, ol, oa.
Qed.

Lemma strictly_increasing_arange (a b : Z) :
  strictly_increasing (arange a b) = true.
Proof.
  destruct (Z_lt_le_dec a b) as [Hlt | Hle].
  - rewrite arange_cons by assumption. simpl.
    apply increasing_from_arange. lia.
  - now rewrite arange_nil.
Qed.

(** C3.  For a valid input and a recognised fill type [fillCoords]
    returns, and the returned steps are exactly the integers from the first
    to the last input step: strictly increasing, each once, none missing.
    The returned longitudes and latitudes are as many as the steps.  For
    every gap between consecutive input steps [p] and [s] the output holds
    the [s - p - 1] steps [p+1 .. s-1] in between, and the arrays [lonFill]
    and [latFill] computed for the gap have that length and are the
    output's longitudes and latitudes at those steps. *)
Theorem fillCoords_dense (trackSteps : list Z)
    (trackLons trackLats : list R) (fill : string) :
  valid trackSteps trackLons trackLats ->
  recognised fill ->
  exists os ol oa,
    fillCoords trackSteps trackLons trackLats fill = Ok (os, ol, oa) /\
    os = arange (hd 0 trackSteps) (last trackSteps 0 + 1) /\
    strictly_increasing os = true /\
    NoDup os /\
    (forall z, In z os <-> hd 0 trackSteps <= z <= last trackSteps 0) /\
    length ol = length os /\
    length oa = length os /\
    forall (i : nat) (p s : Z),
      nth_error trackSteps i = Some p ->
      nth_error trackSteps (S i) = Some s ->
      s - p > 1 ->
      gap_slice os (hd 0 trackSteps) p s = arange (p + 1) s /\
      length (gap_slice os (hd 0 trackSteps) p s) = Z.to_nat (s - p - 1) /\
      exists lonFill latFill,
        gapFill fill trackLons trackLats (Z.of_nat (S i))
          (nth (S i) trackLons 0%R) (nth (S i) trackLats 0%R)
          (Z.to_nat (s - p - 1)) = Ok (lonFill, latFill) /\
        length lonFill = Z.to_nat (s - p - 1) /\
        length latFill = Z.to_nat (s - p - 1) /\
        gap_slice ol (hd 0 trackSteps) p s = lonFill /\
        gap_slice oa (hd 0 trackSteps) p s = latFill.
Proof.
  intros Hv Hrec.
  destruct (fillCoords_dense_out _ _ _ fill Hv Hrec)
    as (os & ol & oa & Hfc & Hos & Hol & Hoa).
  exists os, ol, oa.
  split; [exact Hfc|]. split; [exact Hos|].
  split; [rewrite Hos; apply strictly_increasing_arange|].
  split; [rewrite Hos; apply arange_NoDup|].
  split; [intros z; rewrite Hos, arange_In; lia|].
  split; [exact Hol|]. split; [exact Hoa|].
  intros i p s Hp Hs Hgt.
  destruct (fillCoords_gap _ _ _ fill i p s Hv Hrec Hp Hs Hgt)
    as (os' & ol' & oa' & lf & af & Hfc' & Hg & Hss & Hl & Ha).
  rewrite Hfc in Hfc'. inversion Hfc'; subst os' ol' oa'.
  destruct (gapFill_lengths _ _ _ _ _ _ _ _ _ Hg) as [Hlf Haf].
  split; [exact Hss|].
  split; [rewrite Hss, arange_length; lia|].
  exists lf, af. repeat split; assumption.
Qed.

Lemma fillCoords_dense_witness :
  valid [2; 5] [0; 3]%R [0; 0]%R /\
  recognised "begin" /\
  exists os ol oa,
    fillCoords [2; 5] [0; 3]%R [0; 0]%R "begin" = Ok (os, ol, oa) /\
    os = [2; 3; 4; 5] /\ length ol = 4%nat /\ length oa = 4%nat.
Proof.
  assert (Hv : valid [2; 5] [0; 3]%R [0; 0]%R)
    by (repeat split; [discriminate]).
  assert (Hrec : recognised "begin") by (right; right; left; reflexivity).
  split; [exact Hv|]. split; [exact Hrec|].
  destruct (fillCoords_dense [2; 5] [0; 3]%R [0; 0]%R "begin" Hv Hrec)
    as (os & ol & oa & Hfc & Hos & _ & _ & _ & Hol & Hoa & _).
  exists os, ol, oa.
  split; [exact Hfc|]. rewrite Hol, Hoa, Hos. repeat split.
Defined.

(** C4.  The constant fill types.  For a valid input and a gap between
    the consecutive points [(p, lonB, latB)] and [(s, lon, lat)], the
    [s - p - 1] synthesized points of the output are all equal: to the
    arithmetic mean of the two bracketing coordinates with 'midpoint', to
    the coordinate before the gap with 'begin', to the coordinate after
    the gap with 'end'. *)
Theorem fillCoords_constant_fills (trackSteps : list Z)
    (trackLons trackLats : list R) (i : nat) (p s : Z)
    (lonB lon latB lat : R) :
  valid trackSteps trackLons trackLats ->
  nth_error trackSteps i = Some p ->
  nth_error trackSteps (S i) = Some s ->
  s - p > 1 ->
  nth_error trackLons i = Some lonB ->
  nth_error trackLons (S i) = Some lon ->
  nth_error trackLats i = Some latB ->
  nth_error trackLats (S i) = Some lat ->
  let n := Z.to_nat (s - p - 1) in
  let s0 := hd 0 trackSteps in
  (exists os ol oa,
     fillCoords trackSteps trackLons trackLats "midpoint" = Ok (os, ol, oa) /\
     gap_slice ol s0 p s = repeat ((lon + lonB) / 2)%R n /\
     gap_slice oa s0 p s = repeat ((lat + latB) / 2)%R n) /\
  (exists os ol oa,
     fillCoords trackSteps trackLons trackLats "begin" = Ok (os, ol, oa) /\
     gap_slice ol s0 p s = repeat lonB n /\
     gap_slice oa s0 p s = repeat latB n) /\
  (exists os ol oa,
     fillCoords trackSteps trackLons trackLats "end" = Ok (os, ol, oa) /\
     gap_slice ol s0 p s = repeat lon n /\
     gap_slice oa s0 p s = repeat lat n).
Proof.
  intros Hv Hp Hs Hgt HlonB Hlon HlatB Hlat n s0. subst n s0.
  split; [|split].
  - apply (fillCoords_gap_values _ _ _ "midpoint" i p s lon lat); auto.
    + left; reflexivity.
    + now apply gapFill_midpoint.
  - apply (fillCoords_gap_values _ _ _ "begin" i p s lon lat); auto.
    + right; right; left; reflexivity.
    + now apply gapFill_begin.
  - apply (fillCoords_gap_values _ _ _ "end" i p s lon lat); auto.
    + right; right; right; reflexivity.
    + now apply gapFill_end.
Qed.

Lemma fillCoords_constant_fills_witness :
  valid [2; 5] [0; 3]%R [0; 0]%R /\
  exists os ol oa,
    fillCoords [2; 5] [0; 3]%R [0; 0]%R "midpoint" = Ok (os, ol, oa) /\
    gap_slice ol 2 2 5 = [((3 + 0) / 2)%R; ((3 + 0) / 2)%R].
Proof.
  assert (Hv : valid [2; 5] [0; 3]%R [0; 0]%R)
    by (repeat split; [discriminate]).
  split; [exact Hv|].
  destruct (fillCoords_constant_fills [2; 5] [0; 3]%R [0; 0]%R 0 2 5
              0%R 3%R 0%R 0%R Hv eq_refl eq_refl ltac:(lia)
              eq_refl eq_refl eq_refl eq_refl)
    as [(os & ol & oa & Hfc & Hl & _) _].
  exists os, ol, oa. split; [exact Hfc | exact Hl].
Defined.

(** C10.  The 'linear' fill type.  For a valid input and a gap between the
    consecutive points [(p, lonB, latB)] and [(s, lon, lat)], the
    [n = s - p - 1] synthesized coordinates are [np.linspace] from the
    coordinate before the gap to the coordinate after it, end points
    included: with [n >= 2] the first synthesized point is the point before
    the gap, the last one is the point after it, and the [k]-th lies
    [k / (n - 1)] of the way; with [n = 1] the single synthesized point is
    the point before the gap. *)
Theorem fillCoords_linear_inclusive (trackSteps : list Z)
    (trackLons trackLats : list R) (i : nat) (p s : Z)
    (lonB lon latB lat : R) :
  valid trackSteps trackLons trackLats ->
  nth_error trackSteps i = Some p ->
  nth_error trackSteps (S i) = Some s ->
  s - p > 1 ->
  nth_error trackLons i = Some lonB ->
  nth_error trackLons (S i) = Some lon ->
  nth_error trackLats i = Some latB ->
  nth_error trackLats (S i) = Some lat ->
  let n := Z.to_nat (s - p - 1) in
  let s0 := hd 0 trackSteps in
  exists os ol oa,
    fillCoords trackSteps trackLons trackLats "linear" = Ok (os, ol, oa) /\
    gap_slice ol s0 p s = linspace lonB lon n /\
    gap_slice oa s0 p s = linspace latB lat n /\
    length (gap_slice ol s0 p s) = n /\
    length (gap_slice oa s0 p s) = n /\
    (n = 1%nat ->
     gap_slice ol s0 p s = [lonB] /\ gap_slice oa s0 p s = [latB]) /\
    ((2 <= n)%nat ->
     hd 0%R (gap_slice ol s0 p s) = lonB /\
     last (gap_slice ol s0 p s) 0%R = lon /\
     hd 0%R (gap_slice oa s0 p s) = latB /\
     last (gap_slice oa s0 p s) 0%R = lat /\
     forall k : nat, (k < n)%nat ->
       nth k (gap_slice ol s0 p s) 0%R =
         (lonB + INR k * ((lon - lonB) / INR (n - 1)))%R /\
       nth k (gap_slice oa s0 p s) 0%R =
         (latB + INR k * ((lat - latB) / INR (n - 1)))%R).
Proof.
  intros Hv Hp Hs Hgt HlonB Hlon HlatB Hlat n s0.
  destruct (fillCoords_gap_values trackSteps trackLons trackLats "linear"
              i p s lon lat (linspace lonB lon n) (linspace latB lat n))
    as (os & ol & oa & Hfc & Hl & Ha); auto.
  - right; left; reflexivity.
  - now apply gapFill_linear.
  - exists os, ol, oa. fold s0 in Hl, Ha. rewrite Hl, Ha.
    split; [exact Hfc|]. split; [reflexivity|]. split; [reflexivity|].
    split; [apply linspace_length|]. split; [apply linspace_length|].
    split.
    + intros ->. now rewrite !linspace_one.
    + intros Hn.
      destruct (linspace_ends lonB lon n Hn) as [H1 H2].
      destruct (linspace_ends latB lat n Hn) as [H3 H4].
      repeat split; try assumption; now apply linspace_nth.
Qed.

Lemma fillCoords_linear_inclusive_witness :
  valid [2; 5] [0; 3]%R [0; 0]%R /\
  exists os ol oa,
    fillCoords [2; 5] [0; 3]%R [0; 0]%R "linear" = Ok (os, ol, oa) /\
    hd 0%R (gap_slice ol 2 2 5) = 0%R /\
    last (gap_slice ol 2 2 5) 0%R = 3%R.
Proof.
  assert (Hv : valid [2; 5] [0; 3]%R [0; 0]%R)
    by (repeat split; [discriminate]).
  split; [exact Hv|].
  destruct (fillCoords_linear_inclusive [2; 5] [0; 3]%R [0; 0]%R 0 2 5
              0%R 3%R 0%R 0%R Hv eq_refl eq_refl ltac:(lia)
              eq_refl eq_refl eq_refl eq_refl)
    as (os & ol & oa & Hfc & _ & _ & _ & _ & _ & H2).
  destruct (H2 ltac:(simpl; lia)) as (Hhd & Hlast & _).
  exists os, ol, oa. repeat split; assumption.
Defined.

(** C1.  What the code does on the specification's example, a gap between
    [(step=2, lon=0, lat=0)] and [(step=5, lon=3, lat=0)] with 'linear':
    the points synthesized at steps 3 and 4 get the longitudes 0 and 3,
    the end points themselves, where linear interpolation gives 1 and 2. *)
Theorem fillCoords_linear_example :
  fillCoords [2; 5] [0; 3]%R [0; 0]%R "linear" =
  Ok ([2; 3; 4; 5], [0; 0; 3; 3]%R, [0; 0; 0; 0]%R).
Proof.
  cbv [fillCoords fill_loop fill_body gapFill getitem linspace arange bind
       length nth_error Z.of_nat Z.to_nat Z.ltb Z.leb Z.gtb Z.compare Z.add
       Z.sub Pos.compare Pos.compare_cont Z.opp Z.pos_sub Pos.to_nat
       Pos.iter_op Nat.add andb prev steps lons lats app map seq String.eqb
       Ascii.eqb Bool.eqb Pos.of_succ_nat Pos.succ Pos.add Pos.pred_double
       Z.succ_double Z.pred_double Z.double set_last removelast CompOpp INR].
  repeat f_equal; lra.
Qed.

(** ** haversine *)

Open Scope R_scope.

Lemma arctan2_0_1 : arctan2 0 1 = 0.
Proof.
  unfold arctan2. destruct (Rlt_dec 0 1) as [_ | Hn]; [|exfalso; lra].
  replace (0 / 1) with 0 by field. apply atan_0.
Qed.


Lemma haversine_of_a (lon1 lat1 lon2 lat2 : R) :
  haversine lon1 lat1 lon2 lat2 =
  6373 * (2 * arctan2 (sqrt (haversine_a lon1 lat1 lon2 lat2))
                (sqrt (1 - haversine_a lon1 lat1 lon2 lat2))).
Proof. reflexivity. Qed.


(** ** geodist *)

Lemma getitem_app_next {A : Type} (pre suf : list A) (x x' : A) :
  getitem (pre ++ x :: x' :: suf) (Z.of_nat (S (length pre))) = Ok x'.
Proof.
  apply getitem_nth_error.
  rewrite nth_error_app2 by lia.
  replace (S (length pre) - length pre)%nat with 1%nat by lia.
  reflexivity.
Qed.

(** An iteration after the first adds one leg. *)
Lemma dist_body_next (lons lats : list R) (i : Z) (x y xc yc d : R) :
  getitem lons i = Ok xc ->
  getitem lats i = Ok yc ->
  (0 < i)%Z ->
  dist_body lons lats (mk_dist_state d (Some x) (Some y)) i =
  Ok (mk_dist_state (d + haversine x y xc yc) (Some xc) (Some yc)).
Proof.
  intros Hlon Hlat Hi. unfold dist_body. rewrite Hlon, Hlat.
  cbn [bind read_local prevLon prevLat dist].
  replace (i >? 0)%Z with true by (symmetry; apply Z.gtb_lt; lia).
  reflexivity.
Qed.

(** The loop from the second point on: [(x, y)] is the previous point. *)
Lemma dist_loop_tail (restL : list R) :
  forall (restA preL preA : list R) (x y d : R),
    length preL = length preA ->
    length restL = length restA ->
    exists st,
      dist_loop (preL ++ x :: restL) (preA ++ y :: restA)
        (map Z.of_nat (seq (S (length preL)) (length restL)))
        (mk_dist_state d (Some x) (Some y)) = Ok st /\
      dist st =
      fold_left add_leg (consecutive (combine (x :: restL) (y :: restA))) d.
Proof.
  induction restL as [|x' restL IH]; intros restA preL preA x y d Hpre Hrest.
  - destruct restA; [|discriminate]. simpl. eauto.
  - destruct restA as [|y' restA]; [discriminate|].
    simpl in Hrest. injection Hrest as Hrest.
    cbn [length seq map dist_loop].
    rewrite (dist_body_next _ _ _ x y x' y' d);
      [| apply getitem_app_next
       | rewrite Hpre; apply getitem_app_next
       | lia].
    cbn [bind].
    destruct (IH restA (preL ++ [x]) (preA ++ [y]) x' y'
                (d + haversine x y x' y'))
      as (st & Hloop & Hdist);
      [rewrite !length_app; simpl; lia | exact Hrest |].
    rewrite <- !app_assoc in Hloop. cbn [app] in Hloop.
    rewrite length_app in Hloop. cbn [length] in Hloop.
    rewrite Nat.add_1_r in Hloop.
    exists st. split; [exact Hloop|]. rewrite Hdist. reflexivity.
Qed.

Lemma geodist_total (lons lats : list R) :
  length lons = length lats ->
  geodist lons lats = Ok (totalTrackDistance lons lats).
Proof.
  intros Hlen. unfold geodist.
  replace (length lons =? length lats)%nat with true
    by (symmetry; now apply Nat.eqb_eq).
  cbn [negb].
  destruct lons as [|x restL]; destruct lats as [|y restA];
    try discriminate; [reflexivity|].
  simpl in Hlen. injection Hlen as Hlen.
  unfold range. cbn [length seq map dist_loop]. unfold dist_body at 1.
  cbn [Z.gtb Z.compare Z.of_nat dist].
  replace (getitem (x :: restL) 0%Z) with (Ok x)
    by (symmetry; apply (getitem_nth_error (x :: restL) 0 x eq_refl)).
  replace (getitem (y :: restA) 0%Z) with (Ok y)
    by (symmetry; apply (getitem_nth_error (y :: restA) 0 y eq_refl)).
  cbn [bind].
  destruct (dist_loop_tail restL restA [] [] x y 0 eq_refl Hlen)
    as (st & Hloop & Hdist).
  cbn [app length] in Hloop. rewrite Hloop. cbn [bind].
  rewrite Hdist. reflexivity.
Qed.

(** The legs are added from left to right, starting from 0. *)
Example totalTrackDistance_three (lon1 lat1 lon2 lat2 lon3 lat3 : R) :
  totalTrackDistance [lon1; lon2; lon3] [lat1; lat2; lat3] =
  0 + haversine lon1 lat1 lon2 lat2 + haversine lon2 lat2 lon3 lat3.
Proof. reflexivity. Qed.

(** C5.  On longitudes and latitudes of one length [geodist] returns the
    sum of [haversine] over the consecutive pairs of points, taken in input
    order; on no point or a single point it returns 0. *)
Theorem geodist_sums_consecutive_pairs (lons lats : list R) :
  length lons = length lats ->
  geodist lons lats = Ok (totalTrackDistance lons lats) /\
  ((length lons <= 1)%nat -> geodist lons lats = Ok 0).
Proof.
  intros Hlen. split; [now apply geodist_total|].
  intros Hle. rewrite geodist_total by assumption.
  destruct lons as [|x [|x' lons]]; destruct lats as [|y [|y' lats]];
    try discriminate; try reflexivity.
  simpl in Hle. lia.
Qed.

Lemma geodist_sums_consecutive_pairs_witness :
  length [0; 1; 2] = length [0; 0; 0] /\
  geodist [0; 1; 2] [0; 0; 0] =
  Ok (0 + haversine 0 0 1 0 + haversine 1 0 2 0).
Proof.
  split; [reflexivity|].
  exact (proj1 (geodist_sums_consecutive_pairs [0; 1; 2] [0; 0; 0] eq_refl)).
Defined.

(** C6.  On longitudes and latitudes of different lengths [geodist] raises
    [ValueError('Coordinate lists must have the same length.')] and
    computes nothing. *)
Theorem geodist_length_mismatch (lons lats : list R) :
  length lons <> length lats ->
  geodist lons lats =
  Raise (ValueError "Coordinate lists must have the same length.").
Proof.
  intros Hne. unfold geodist.
  replace (length lons =? length lats)%nat with false
    by (symmetry; now apply Nat.eqb_neq).
  reflexivity.
Qed.

Lemma geodist_length_mismatch_witness :
  length [0; 1] <> length [0] /\
  geodist [0; 1] [0] =
  Raise (ValueError "Coordinate lists must have the same length.").
Proof.
  assert (Hne : length [0; 1] <> length [0]) by discriminate.
  split; [exact Hne|].
  exact (geodist_length_mismatch [0; 1] [0] Hne).
Defined.

(** * Further properties of the code *)

Open Scope Z_scope.

(** ** DifferentiateEddies *)

Lemma getitem_last {A : Type} (l : list A) (d : A) :
  l <> [] -> getitem l (-1) = Ok (last l d).
Proof.
  intros Hne. destruct (exists_last Hne) as (l' & a & ->).
  rewrite last_last. unfold getitem. rewrite length_app. simpl length.
  cbn [Z.ltb Z.compare].
  replace (-1 + Z.of_nat (length l' + 1)) with (Z.of_nat (length l'))
    by lia.
  replace (0 <=? Z.of_nat (length l')) with true
    by (symmetry; apply Z.leb_le; lia).
  replace (Z.of_nat (length l') <? Z.of_nat (length l' + 1)) with true
    by (symmetry; apply Z.ltb_lt; lia).
  cbn [andb]. rewrite Nat2Z.id, nth_error_app2 by lia.
  now rewrite Nat.sub_diag.
Qed.

Lemma getitem_hd {A : Type} (l : list A) (d : A) :
  l <> [] -> getitem l 0 = Ok (hd d l).
Proof.
  intros Hne. destruct l as [|x l]; [congruence|].
  exact (getitem_nth_error (x :: l) 0 x eq_refl).
Qed.

Lemma getitem_nil {A : Type} (i : Z) :
  getitem (@nil A) i = Raise IndexError.
Proof.
  unfold getitem. simpl length. cbn [Z.of_nat].
  destruct (i <? 0) eqn:Hneg.
  - apply Z.ltb_lt in Hneg.
    replace (0 <=? i + 0) with false by (symmetry; apply Z.leb_gt; lia).
    reflexivity.
  - replace (i <? 0) with false. now rewrite andb_false_r.
Qed.

Lemma getitem_raises_IndexError {A : Type} (l : list A) (i : Z) (e : exn) :
  getitem l i = Raise e -> e = IndexError.
Proof.
  unfold getitem.
  destruct ((0 <=? (if i <? 0 then i + Z.of_nat (length l) else i)) &&
            ((if i <? 0 then i + Z.of_nat (length l) else i)
             <? Z.of_nat (length l)));
    [destruct (nth_error l _)|]; congruence.
Qed.

Section Eddies.

Context {V : Type}.
Variable lifetime : Z.

Lemma eddies_body_classifiable (c a : list (track V)) (t : track V) :
  classifiable lifetime t ->
  eddies_body lifetime (c, a) t =
  Ok (c ++ filter (kept lifetime 1) [t],
      a ++ filter (kept lifetime (-1)) [t]).
Proof.
  intros [Hstep Htype]. unfold eddies_body.
  rewrite (getitem_last (step t) 0 Hstep), (getitem_hd (step t) 0 Hstep).
  cbn [bind]. fold (timesteps_of t). cbn [filter]. unfold kept.
  destruct (timesteps_of t >=? lifetime) eqn:Hlong; cbn [and_then andb bind].
  - rewrite Z.geb_le in Hlong.
    rewrite (getitem_hd (type t) 0 (Htype Hlong)). cbn [bind].
    destruct (hd 0 (type t) =? 1); destruct (hd 0 (type t) =? -1);
      rewrite ?app_nil_r; reflexivity.
  - now rewrite !app_nil_r.
Qed.

Lemma eddies_body_raises (c a : list (track V)) (t : track V) :
  ~ classifiable lifetime t ->
  eddies_body lifetime (c, a) t = Raise IndexError.
Proof.
  intros Hnot. unfold eddies_body.
  destruct (step t) as [|s0 ss] eqn:Hstep.
  - now rewrite getitem_nil.
  - rewrite (getitem_last (s0 :: ss) 0), (getitem_hd (s0 :: ss) 0)
      by discriminate.
    cbn [bind].
    destruct (type t) as [|ty tys] eqn:Htype.
    + destruct (last (s0 :: ss) 0 - hd 0 (s0 :: ss) + 1 >=? lifetime)
        eqn:Hlong.
      * cbn [and_then]. now rewrite getitem_nil.
      * exfalso. apply Hnot. split; [rewrite Hstep; discriminate|].
        unfold timesteps_of. rewrite Hstep. intros Hle.
        rewrite Z.geb_leb in Hlong. apply Z.leb_gt in Hlong. lia.
    + exfalso. apply Hnot. split; [rewrite Hstep|rewrite Htype]; discriminate.
Qed.

Lemma classifiable_dec (t : track V) :
  {classifiable lifetime t} + {~ classifiable lifetime t}.
Proof.
  unfold classifiable.
  destruct (step t) as [|s0 ss]; [right; intros [H _]; congruence|].
  destruct (type t) as [|ty tys].
  - destruct (Z_le_gt_dec lifetime (timesteps_of t)) as [Hle | Hgt].
    + right. intros [_ H]. now apply H.
    + left. split; [discriminate | lia].
  - left. split; [|intros _]; discriminate.
Qed.

Lemma eddies_loop_classifiable (tracks : list (track V)) :
  forall c a : list (track V),
    Forall (classifiable lifetime) tracks ->
    eddies_loop lifetime tracks (c, a) =
    Ok (c ++ filter (kept lifetime 1) tracks,
        a ++ filter (kept lifetime (-1)) tracks).
Proof.
  induction tracks as [|t tracks IH]; intros c a Hall.
  - simpl. now rewrite !app_nil_r.
  - inversion Hall as [|? ? Ht Hrest]; subst.
    cbn [eddies_loop]. rewrite (eddies_body_classifiable c a t Ht).
    cbn [bind]. rewrite (IH _ _ Hrest), <- !app_assoc, <- !filter_app.
    reflexivity.
Qed.

Lemma eddies_loop_raises (tracks : list (track V)) :
  forall c a : list (track V),
    Exists (fun t => ~ classifiable lifetime t) tracks ->
    eddies_loop lifetime tracks (c, a) = Raise IndexError.
Proof.
  induction tracks as [|t tracks IH]; intros c a Hex.
  - inversion Hex.
  - cbn [eddies_loop].
    destruct (classifiable_dec t) as [Ht | Ht].
    + rewrite (eddies_body_classifiable c a t Ht). cbn [bind].
      apply IH. inversion Hex; subst; [contradiction | assumption].
    + now rewrite (eddies_body_raises c a t Ht).
Qed.

End Eddies.

Lemma DifferentiateEddies_filters_aux {V : Type} (tracks : list (track V))
    (lifetime : Z) :
  Forall (classifiable lifetime) tracks ->
  DifferentiateEddies tracks lifetime =
  Ok (filter (kept lifetime 1) tracks, filter (kept lifetime (-1)) tracks).
Proof.
  intros Hall. unfold DifferentiateEddies.
  now rewrite eddies_loop_classifiable.
Qed.

(** X1.  [DifferentiateEddies] is a stable two-way filter: when every track
    has a step, and a type entry if it spans at least [lifetime] steps, the
    cyclones are the tracks that span at least [lifetime] steps and have
    type 1, the anticyclones those with type -1, each in input order. *)
Theorem DifferentiateEddies_filters {V : Type} (tracks : list (track V))
    (lifetime : Z) :
  Forall (classifiable lifetime) tracks ->
  DifferentiateEddies tracks lifetime =
  Ok (filter (kept lifetime 1) tracks, filter (kept lifetime (-1)) tracks).
Proof.
  intros Hall. unfold DifferentiateEddies.
  now rewrite eddies_loop_classifiable.
Qed.

Lemma DifferentiateEddies_filters_witness :
  let t1 := mk_track [3; 4; 9] [1; 1; 1] "a"%string in
  let t2 := mk_track [1; 2] [-1; -1] "b"%string in
  let t3 := mk_track [5; 6; 7; 8] [-1; -1; -1; -1] "c"%string in
  Forall (classifiable 3) [t1; t2; t3] /\
  DifferentiateEddies [t1; t2; t3] 3 = Ok ([t1], [t3]).
Proof.
  intros t1 t2 t3.
  assert (Hall : Forall (classifiable 3) [t1; t2; t3])
    by (repeat constructor; try discriminate; intros _; discriminate).
  split; [exact Hall|].
  exact (DifferentiateEddies_filters [t1; t2; t3] 3 Hall).
Defined.

(** X2.  A track without steps, or a track without a type entry that
    spans at least [lifetime] steps, makes [DifferentiateEddies] raise
    [IndexError], wherever it stands in the list. *)
Theorem DifferentiateEddies_raises {V : Type} (tracks : list (track V))
    (lifetime : Z) (t : track V) :
  In t tracks ->
  step t = [] \/ (type t = [] /\ lifetime <= timesteps_of t) ->
  DifferentiateEddies tracks lifetime = Raise IndexError.
Proof.
  intros Hin Hbad. unfold DifferentiateEddies.
  apply eddies_loop_raises. apply Exists_exists. exists t.
  split; [exact Hin|]. intros [Hstep Htype].
  destruct Hbad as [Hs | [Ht Hle]]; [congruence|].
  now apply Htype.
Qed.

Lemma DifferentiateEddies_raises_witness :
  let t1 := mk_track [3; 4; 9] [1; 1; 1] "a"%string in
  let t2 := mk_track [] [] "b"%string in
  In t2 [t1; t2] /\
  DifferentiateEddies [t1; t2] 0 = Raise IndexError.
Proof.
  intros t1 t2.
  assert (Hin : In t2 [t1; t2]) by (right; left; reflexivity).
  split; [exact Hin|].
  exact (DifferentiateEddies_raises [t1; t2] 0 t2 Hin (or_introl eq_refl)).
Defined.

(** X3.  The type of a track that spans fewer than [lifetime] steps is
    never read: tracks that all have steps but are too short give two
    empty lists, whatever their type arrays hold, even nothing. *)
Theorem DifferentiateEddies_short_tracks {V : Type}
    (tracks : list (track V)) (lifetime : Z) :
  Forall (fun t => step t <> [] /\ timesteps_of t < lifetime) tracks ->
  DifferentiateEddies tracks lifetime = Ok ([], []).
Proof.
  intros Hall. unfold DifferentiateEddies.
  rewrite eddies_loop_classifiable.
  - assert (Hnone : forall sign,
               filter (kept lifetime sign) tracks = []).
    { intros sign. induction Hall as [|t l [_ Hlt] _ IH]; [reflexivity|].
      cbn [filter]. unfold kept at 1.
      replace (timesteps_of t >=? lifetime) with false
        by (symmetry; rewrite Z.geb_leb; apply Z.leb_gt; lia).
      exact IH. }
    now rewrite !Hnone.
  - eapply Forall_impl; [|exact Hall].
    intros t [Hstep Hlt]. split; [exact Hstep | lia].
Qed.

Lemma DifferentiateEddies_short_tracks_witness :
  let t1 := mk_track [3; 4; 9] [] "a"%string in
  Forall (fun t : track string => step t <> [] /\ timesteps_of t < 10)
    [t1] /\
  DifferentiateEddies [t1] 10 = Ok ([], []).
Proof.
  intros t1.
  assert (Hall : Forall (fun t : track string =>
                           step t <> [] /\ timesteps_of t < 10) [t1])
    by (constructor; [split; [discriminate | reflexivity] | constructor]).
  split; [exact Hall|].
  exact (DifferentiateEddies_short_tracks [t1] 10 Hall).
Defined.

Lemma kept_exclusive {V : Type} (lifetime : Z) (t : track V) :
  kept lifetime 1 t = true -> kept lifetime (-1) t = false.
Proof.
  unfold kept. intros H. apply andb_true_iff in H. destruct H as [_ H].
  apply Z.eqb_eq in H. rewrite H. apply andb_false_r.
Qed.

Lemma filter_exclusive_length {A : Type} (f g : A -> bool) (l : list A) :
  (forall x, f x = true -> g x = false) ->
  (length (filter f l) + length (filter g l) <= length l)%nat.
Proof.
  intros Hex. induction l as [|x l IH]; [simpl; lia|].
  cbn [filter]. destruct (f x) eqn:Hf.
  - rewrite (Hex x Hf). simpl. lia.
  - destruct (g x); simpl; lia.
Qed.

(** X4.  No track is classified twice: on classifiable tracks the call
    returns, no track is both in the cyclones and in the anticyclones,
    every returned track is an input track that spans at least [lifetime]
    steps, and the two lists together are no longer than the input. *)
Theorem DifferentiateEddies_disjoint {V : Type} (tracks : list (track V))
    (lifetime : Z) :
  Forall (classifiable lifetime) tracks ->
  exists cTracks aTracks,
    DifferentiateEddies tracks lifetime = Ok (cTracks, aTracks) /\
    (forall t, In t cTracks -> ~ In t aTracks) /\
    (forall t, In t cTracks \/ In t aTracks ->
               In t tracks /\ lifetime <= timesteps_of t) /\
    (length cTracks + length aTracks <= length tracks)%nat.
Proof.
  intros Hall.
  exists (filter (kept lifetime 1) tracks),
    (filter (kept lifetime (-1)) tracks).
  split; [now apply DifferentiateEddies_filters_aux|].
  split; [|split].
  - intros t Hc Ha. apply filter_In in Hc, Ha.
    destruct Hc as [_ Hc]. destruct Ha as [_ Ha].
    rewrite (kept_exclusive lifetime t Hc) in Ha. discriminate.
  - intros t [H | H]; apply filter_In in H; destruct H as [Hin Hk];
      unfold kept in Hk; apply andb_true_iff in Hk; destruct Hk as [Hk _];
      rewrite Z.geb_le in Hk; auto.
  - apply filter_exclusive_length. apply kept_exclusive.
Qed.

Lemma DifferentiateEddies_disjoint_witness :
  let t1 := mk_track [3; 4; 9] [1; 1; 1] "a"%string in
  let t2 := mk_track [1; 2] [0; 0] "b"%string in
  Forall (classifiable 0) [t1; t2] /\
  exists cTracks aTracks,
    DifferentiateEddies [t1; t2] 0 = Ok (cTracks, aTracks) /\
    (length cTracks + length aTracks <= 2)%nat.
Proof.
  intros t1 t2.
  assert (Hall : Forall (classifiable 0) [t1; t2])
    by (repeat constructor; try discriminate; intros _; discriminate).
  split; [exact Hall|].
  destruct (DifferentiateEddies_disjoint [t1; t2] 0 Hall)
    as (c & a & Hde & _ & _ & Hlen).
  exists c, a. split; [exact Hde | exact Hlen].
Defined.

Lemma DifferentiateEddies_ok_classifiable {V : Type}
    (tracks : list (track V)) (lifetime : Z)
    (r : list (track V) * list (track V)) :
  DifferentiateEddies tracks lifetime = Ok r ->
  Forall (classifiable lifetime) tracks.
Proof.
  intros Hok.
  destruct (Forall_Exists_dec (classifiable lifetime)
              (classifiable_dec lifetime) tracks) as [Hall | Hex];
    [exact Hall|].
  unfold DifferentiateEddies in Hok.
  rewrite (eddies_loop_raises lifetime tracks [] [] Hex) in Hok.
  discriminate.
Qed.

Lemma filter_kept_longer {V : Type} (l1 l2 sign : Z)
    (tracks : list (track V)) :
  l1 <= l2 ->
  filter (kept l2 sign) tracks =
  filter (fun t => timesteps_of t >=? l2) (filter (kept l1 sign) tracks).
Proof.
  intros Hle.
  assert (Hk : forall t : track V,
             kept l2 sign t = (timesteps_of t >=? l2) && kept l1 sign t).
  { intros t. unfold kept.
    destruct (timesteps_of t >=? l2) eqn:H2; [|reflexivity].
    rewrite Z.geb_le in H2.
    replace (timesteps_of t >=? l1) with true
      by (symmetry; rewrite Z.geb_le; lia).
    reflexivity. }
  induction tracks as [|t tracks IH]; [reflexivity|].
  cbn [filter]. rewrite Hk.
  destruct (kept l1 sign t); cbn [filter];
    destruct (timesteps_of t >=? l2); cbn [andb]; now rewrite IH.
Qed.

(** X5.  Raising the minimum lifetime only removes tracks: if the call
    with [lifetime1] returns, the call with a larger [lifetime2] returns
    too, and its two lists are those of the first call without the tracks
    that span fewer than [lifetime2] steps. *)
Theorem DifferentiateEddies_lifetime_monotone {V : Type}
    (tracks cTracks aTracks : list (track V)) (lifetime1 lifetime2 : Z) :
  DifferentiateEddies tracks lifetime1 = Ok (cTracks, aTracks) ->
  lifetime1 <= lifetime2 ->
  DifferentiateEddies tracks lifetime2 =
  Ok (filter (fun t => timesteps_of t >=? lifetime2) cTracks,
      filter (fun t => timesteps_of t >=? lifetime2) aTracks).
Proof.
  intros Hok Hle.
  pose proof (DifferentiateEddies_ok_classifiable _ _ _ Hok) as Hall1.
  rewrite (DifferentiateEddies_filters_aux tracks lifetime1 Hall1) in Hok.
  inversion Hok; subst cTracks aTracks. clear Hok.
  rewrite DifferentiateEddies_filters_aux.
  - now rewrite !(filter_kept_longer lifetime1 lifetime2).
  - eapply Forall_impl; [|exact Hall1].
    intros t [Hstep Htype]. split; [exact Hstep|].
    intros H. apply Htype. lia.
Qed.

Lemma DifferentiateEddies_lifetime_monotone_witness :
  let t1 := mk_track [3; 4; 9] [1; 1; 1] "a"%string in
  let t2 := mk_track [1; 2] [-1; -1] "b"%string in
  DifferentiateEddies [t1; t2] 0 = Ok ([t1], [t2]) /\
  0 <= 5 /\
  DifferentiateEddies [t1; t2] 5 = Ok ([t1], []).
Proof.
  intros t1 t2.
  assert (H0 : DifferentiateEddies [t1; t2] 0 = Ok ([t1], [t2]))
    by reflexivity.
  assert (Hle : 0 <= 5) by lia.
  split; [exact H0|]. split; [exact Hle|].
  exact (DifferentiateEddies_lifetime_monotone [t1; t2] [t1] [t2] 0 5
           H0 Hle).
Defined.

(** ** fillCoords: inputs that are not valid *)

Lemma getitem_in_range {A : Type} (l : list A) (i : Z) :
  - Z.of_nat (length l) <= i < Z.of_nat (length l) ->
  exists x, getitem l i = Ok x.
Proof.
  intros Hi. unfold getitem.
  set (j := if i <? 0 then i + Z.of_nat (length l) else i).
  assert (Hj : 0 <= j < Z.of_nat (length l)).
  { subst j. destruct (i <? 0) eqn:Hneg;
      [apply Z.ltb_lt in Hneg | apply Z.ltb_ge in Hneg]; lia. }
  replace ((0 <=? j) && (j <? Z.of_nat (length l))) with true
    by (symmetry; apply andb_true_iff; split;
        [apply Z.leb_le | apply Z.ltb_lt]; lia).
  destruct (nth_error l (Z.to_nat j)) eqn:Hn; [eauto|].
  apply nth_error_None in Hn. lia.
Qed.

Section FillLoopErrors.

Variable fill : string.
Variables trackLons trackLats : list R.
Hypothesis Hrec : recognised fill.

Lemma gapFill_returns (i : Z) (lon lat : R) (n : nat) :
  0 <= i <= Z.of_nat (length trackLons) ->
  i <= Z.of_nat (length trackLats) ->
  0 < Z.of_nat (length trackLons) ->
  0 < Z.of_nat (length trackLats) ->
  exists lf af, gapFill fill trackLons trackLats i lon lat n = Ok (lf, af).
Proof.
  intros Hlon Hlat Hnl Hna. unfold gapFill.
  destruct (getitem_in_range trackLons (i - 1) ltac:(lia)) as [xl ->].
  destruct (getitem_in_range trackLats (i - 1) ltac:(lia)) as [xa ->].
  cbn [bind].
  destruct Hrec as [-> | [-> | [-> | ->]]];
    cbn [String.eqb Ascii.eqb Bool.eqb]; eauto.
Qed.

Lemma fill_body_returns (st : fill_state) (i step : Z) :
  0 <= i < Z.of_nat (length trackLons) ->
  i < Z.of_nat (length trackLats) ->
  exists st', fill_body fill trackLons trackLats st i step = Ok st'.
Proof.
  intros Hlon Hlat.
  pose proof (getitem_nth trackLons i 0%R ltac:(lia)) as Glon.
  pose proof (getitem_nth trackLats i 0%R ltac:(lia)) as Glat.
  destruct (Z_gt_le_dec (step - prev st) 1) as [Hgap | Hno].
  - destruct (gapFill_returns i (nth (Z.to_nat i) trackLons 0%R)
                (nth (Z.to_nat i) trackLats 0%R)
                (Z.to_nat (step - prev st - 1))
                ltac:(lia) ltac:(lia) ltac:(lia) ltac:(lia))
      as (lf & af & Hg).
    rewrite (fill_body_gap fill trackLons trackLats st i step _ _ _
               Glon Glat Hgap Hg).
    eauto.
  - rewrite (fill_body_no_gap fill trackLons trackLats st i step _ _
               Glon Glat Hno).
    eauto.
Qed.

Lemma fill_body_out_of_range (st : fill_state) (i step : Z) :
  0 <= i ->
  Z.of_nat (length trackLons) <= i \/ Z.of_nat (length trackLats) <= i ->
  fill_body fill trackLons trackLats st i step = Raise IndexError.
Proof.
  intros Hi Hout. unfold fill_body.
  destruct (getitem trackLons i) as [lon|e] eqn:Glon.
  - destruct (getitem trackLats i) as [lat|e] eqn:Glat.
    + exfalso. unfold getitem in Glon, Glat.
      replace (i <? 0) with false in * by (symmetry; apply Z.ltb_ge; lia).
      destruct Hout as [Hout | Hout].
      * replace (i <? Z.of_nat (length trackLons)) with false in Glon
          by (symmetry; apply Z.ltb_ge; lia).
        rewrite andb_false_r in Glon. discriminate.
      * replace (i <? Z.of_nat (length trackLats)) with false in Glat
          by (symmetry; apply Z.ltb_ge; lia).
        rewrite andb_false_r in Glat. discriminate.
    + cbn [bind]. now rewrite (getitem_raises_IndexError _ _ _ Glat).
  - cbn [bind]. now rewrite (getitem_raises_IndexError _ _ _ Glon).
Qed.

(** The loop runs into the end of the shorter coordinate array. *)
Lemma fill_loop_out_of_range (rest : list Z) :
  forall (i : Z) (st : fill_state),
    0 <= i <= Z.of_nat (length trackLons) ->
    i <= Z.of_nat (length trackLats) ->
    Z.of_nat (length trackLons) < i + Z.of_nat (length rest) \/
    Z.of_nat (length trackLats) < i + Z.of_nat (length rest) ->
    fill_loop fill trackLons trackLats i rest st = Raise IndexError.
Proof.
  induction rest as [|s rest IH]; intros i st Hlon Hlat Hshort.
  - simpl length in Hshort. lia.
  - simpl length in Hshort. cbn [fill_loop].
    destruct (Z_lt_le_dec i (Z.of_nat (length trackLons))) as [Hl | Hl];
      [destruct (Z_lt_le_dec i (Z.of_nat (length trackLats))) as [Ha | Ha]|].
    + destruct (fill_body_returns st i s ltac:(lia) Ha) as [st' ->].
      cbn [bind]. apply IH; lia.
    + rewrite fill_body_out_of_range by (try lia; now right). reflexivity.
    + rewrite fill_body_out_of_range by (try lia; now left). reflexivity.
Qed.

End FillLoopErrors.

(** X6.  [fillCoords] has no length check of its own, it fails where an
    index runs out: with a recognised fill type it raises [IndexError] when
    there is no step at all, and when the longitudes or the latitudes are
    fewer than the steps. *)
Theorem fillCoords_too_short (trackSteps : list Z)
    (trackLons trackLats : list R) (fill : string) :
  recognised fill ->
  trackSteps = [] \/
  (length trackLons < length trackSteps)%nat \/
  (length trackLats < length trackSteps)%nat ->
  fillCoords trackSteps trackLons trackLats fill = Raise IndexError.
Proof.
  intros Hrec Hshort. unfold fillCoords.
  destruct trackSteps as [|s0 t].
  - now rewrite getitem_nil.
  - rewrite (getitem_nth (s0 :: t) 0 0) by (simpl length; lia).
    cbn [bind].
    rewrite fill_loop_out_of_range; [reflexivity | exact Hrec | lia | lia |].
    destruct Hshort as [H | [H | H]]; [discriminate | left | right]; lia.
Qed.

Lemma fillCoords_too_short_witness :
  recognised "linear" /\
  fillCoords [2; 5; 6] [0; 3]%R [0; 0; 0]%R "linear" = Raise IndexError.
Proof.
  assert (Hrec : recognised "linear") by (right; left; reflexivity).
  split; [exact Hrec|].
  apply (fillCoords_too_short [2; 5; 6] [0; 3]%R [0; 0; 0]%R "linear" Hrec).
  right. left. simpl. lia.
Defined.

Lemma getitem_app_l {A : Type} (l extra : list A) (i : Z) :
  0 <= i < Z.of_nat (length l) -> getitem (l ++ extra) i = getitem l i.
Proof.
  intros Hi. destruct (getitem_in_range l i ltac:(lia)) as [x Hx].
  rewrite Hx. unfold getitem in *.
  replace (i <? 0) with false in * by (symmetry; apply Z.ltb_ge; lia).
  rewrite length_app.
  replace ((0 <=? i) && (i <? Z.of_nat (length l + length extra))) with true
    by (symmetry; apply andb_true_iff; split;
        [apply Z.leb_le | apply Z.ltb_lt]; lia).
  replace ((0 <=? i) && (i <? Z.of_nat (length l))) with true in Hx
    by (symmetry; apply andb_true_iff; split;
        [apply Z.leb_le | apply Z.ltb_lt]; lia).
  rewrite nth_error_app1 by lia. exact Hx.
Qed.

Lemma fill_loop_surplus (fill : string) (trackLons trackLats xl xa : list R)
    (rest : list Z) :
  forall (i : Z) (st : fill_state),
    1 <= i ->
    i + Z.of_nat (length rest) <= Z.of_nat (length trackLons) ->
    i + Z.of_nat (length rest) <= Z.of_nat (length trackLats) ->
    fill_loop fill (trackLons ++ xl) (trackLats ++ xa) i rest st =
    fill_loop fill trackLons trackLats i rest st.
Proof.
  induction rest as [|s rest IH]; intros i st Hi Hlon Hlat; [reflexivity|].
  simpl length in Hlon, Hlat. cbn [fill_loop].
  assert (Hbody : fill_body fill (trackLons ++ xl) (trackLats ++ xa) st i s =
                  fill_body fill trackLons trackLats st i s).
  { unfold fill_body, gapFill.
    rewrite !(getitem_app_l trackLons xl) by lia.
    rewrite !(getitem_app_l trackLats xa) by lia.
    reflexivity. }
  rewrite Hbody.
  destruct (fill_body fill trackLons trackLats st i s) as [st'|e];
    cbn [bind]; [|reflexivity].
  apply IH; lia.
Qed.

(** X7.  Coordinates beyond the number of steps are never read: appending
    anything to longitudes and latitudes that are as many as the steps
    does not change the result, for any fill type. *)
Theorem fillCoords_ignores_surplus (trackSteps : list Z)
    (trackLons trackLats xl xa : list R) (fill : string) :
  length trackLons = length trackSteps ->
  length trackLats = length trackSteps ->
  fillCoords trackSteps (trackLons ++ xl) (trackLats ++ xa) fill =
  fillCoords trackSteps trackLons trackLats fill.
Proof.
  intros Hlon Hlat.
  destruct trackSteps as [|s0 t]; [reflexivity|].
  simpl length in Hlon, Hlat.
  rewrite !fillCoords_unfold by (rewrite ?length_app; lia).
  rewrite fill_loop_surplus by lia.
  destruct trackLons as [|lon0 trackLons]; [discriminate|].
  destruct trackLats as [|lat0 trackLats]; [discriminate|].
  reflexivity.
Qed.

Lemma fillCoords_ignores_surplus_witness :
  length [0; 3]%R = length [2; 5] /\
  fillCoords [2; 5] ([0; 3] ++ [7; 7])%R ([0; 0] ++ [9])%R "end" =
  fillCoords [2; 5] [0; 3]%R [0; 0]%R "end".
Proof.
  split; [reflexivity|].
  exact (fillCoords_ignores_surplus [2; 5] [0; 3]%R [0; 0]%R [7; 7]%R [9]%R
           "end" eq_refl eq_refl).
Defined.

(** X8.  The steps are not checked for order: a step that repeats the
    previous one or falls below it is no gap, so a non-empty input in which
    no step exceeds its predecessor by more than 1 comes back unchanged,
    repeated and decreasing steps included. *)
Theorem fillCoords_accepts_unordered_steps (trackSteps : list Z)
    (trackLons trackLats : list R) (fill : string) :
  trackSteps <> [] ->
  length trackLons = length trackSteps ->
  length trackLats = length trackSteps ->
  no_gaps trackSteps = true ->
  fillCoords trackSteps trackLons trackLats fill =
  Ok (trackSteps, trackLons, trackLats).
Proof. exact (fillCoords_no_gaps trackSteps trackLons trackLats fill). Qed.

Lemma fillCoords_accepts_unordered_steps_witness :
  [5; 5; 3; 4] <> [] /\
  no_gaps [5; 5; 3; 4] = true /\
  fillCoords [5; 5; 3; 4] [1; 2; 3; 4]%R [6; 7; 8; 9]%R "midpoint" =
  Ok ([5; 5; 3; 4], [1; 2; 3; 4]%R, [6; 7; 8; 9]%R).
Proof.
  assert (Hne : [5; 5; 3; 4] <> []) by discriminate.
  split; [exact Hne|]. split; [reflexivity|].
  exact (fillCoords_accepts_unordered_steps [5; 5; 3; 4] [1; 2; 3; 4]%R
           [6; 7; 8; 9]%R "midpoint" Hne eq_refl eq_refl eq_refl).
Defined.

(** ** fillCoords: the output as an input *)

Lemma max_diff_from_arange (p a b : Z) :
  a <= p + 1 -> max_diff_from 1 p (arange a b) = true.
Proof.
  intros Hpa. remember (Z.to_nat (b - a)) as n eqn:Hn.
  revert p a Hpa Hn. induction n as [|n IH]; intros p a Hpa Hn.
  - rewrite arange_nil by lia. reflexivity.
  - rewrite arange_cons by lia. simpl.
    apply andb_true_iff. split; [apply Z.leb_le; lia|].
    apply IH; lia.
Qed.

Lemma no_gaps_arange (a b : Z) : no_gaps (arange a b) = true.
Proof.
  destruct (Z_lt_le_dec a b) as [Hlt | Hle].
  - rewrite arange_cons by assumption. simpl.
    apply max_diff_from_arange. lia.
  - now rewrite arange_nil.
Qed.

(** X9.  Filling is idempotent: the output of [fillCoords] on a valid
    input with a recognised fill type is itself a valid input without
    gaps, and filling it again, with any fill type, returns it unchanged. *)
Theorem fillCoords_idempotent (trackSteps : list Z)
    (trackLons trackLats : list R) (fill : string) :
  valid trackSteps trackLons trackLats ->
  recognised fill ->
  exists os ol oa,
    fillCoords trackSteps trackLons trackLats fill = Ok (os, ol, oa) /\
    valid os ol oa /\
    forall fill2 : string, fillCoords os ol oa fill2 = Ok (os, ol, oa).
Proof.
  intros Hv Hrec.
  destruct (fillCoords_dense_out _ _ _ fill Hv Hrec)
    as (os & ol & oa & Hfc & Hos & Hol & Hoa).
  exists os, ol, oa. split; [exact Hfc|].
  destruct (valid_cons _ _ _ Hv) as (s0 & t & -> & _ & _ & Hinc).
  cbn [hd] in Hos. rewrite last_cons in Hos.
  pose proof (increasing_from_last s0 t Hinc) as Hlast.
  assert (Hne : os <> [])
    by (rewrite Hos, arange_cons by lia; discriminate).
  split.
  - repeat split; try assumption.
    rewrite Hos. apply strictly_increasing_arange.
  - intros fill2. apply fillCoords_no_gaps; try assumption.
    rewrite Hos. apply no_gaps_arange.
Qed.

Lemma fillCoords_idempotent_witness :
  valid [2; 5] [0; 3]%R [0; 0]%R /\
  recognised "midpoint" /\
  exists os ol oa,
    fillCoords [2; 5] [0; 3]%R [0; 0]%R "midpoint" = Ok (os, ol, oa) /\
    fillCoords os ol oa "linear" = Ok (os, ol, oa).
Proof.
  assert (Hv : valid [2; 5] [0; 3]%R [0; 0]%R)
    by (repeat split; [discriminate]).
  assert (Hrec : recognised "midpoint") by (left; reflexivity).
  split; [exact Hv|]. split; [exact Hrec|].
  destruct (fillCoords_idempotent [2; 5] [0; 3]%R [0; 0]%R "midpoint"
              Hv Hrec) as (os & ol & oa & Hfc & _ & Hagain).
  exists os, ol, oa. split; [exact Hfc | apply Hagain].
Defined.

(** Where the point at index [i + j] of the input ends up in the output
    of the loop. *)
Lemma fill_loop_keeps (fill : string) (trackLons trackLats : list R)
    (rest : list Z) :
  forall (i : Z) (st out : fill_state) (j : nat) (s : Z),
    recognised fill ->
    1 <= i ->
    i + Z.of_nat (length rest) <= Z.of_nat (length trackLons) ->
    i + Z.of_nat (length rest) <= Z.of_nat (length trackLats) ->
    increasing_from (prev st) rest = true ->
    fill_loop fill trackLons trackLats i rest st = Ok out ->
    nth_error rest j = Some s ->
    nth_error (lons out)
      (length (lons st) + Z.to_nat (s - prev st) - 1) =
      Some (nth (Z.to_nat (i + Z.of_nat j)) trackLons 0%R) /\
    nth_error (lats out)
      (length (lats st) + Z.to_nat (s - prev st) - 1) =
      Some (nth (Z.to_nat (i + Z.of_nat j)) trackLats 0%R).
Proof.
  induction rest as [|s1 rest IH];
    intros i st out j s Hrec Hi Hlon Hlat Hinc Hloop Hs.
  - destruct j; discriminate.
  - simpl in Hinc. apply andb_true_iff in Hinc. destruct Hinc as [Hps Hinc].
    apply Z.ltb_lt in Hps. simpl length in Hlon, Hlat.
    destruct (fill_body_dense fill trackLons trackLats st i s1 Hrec
                ltac:(lia) ltac:(lia) Hps)
      as (lf1 & af1 & Hbody & Hlf1 & Haf1 & _).
    cbn [fill_loop] in Hloop. rewrite Hbody in Hloop. cbn [bind] in Hloop.
    set (st' := mk_fill_state s1 _ _ _) in *.
    destruct j as [|j].
    + simpl in Hs. inversion Hs; subst s. clear Hs.
      destruct (fill_loop_dense fill trackLons trackLats rest (i + 1) st'
                  Hrec ltac:(lia) ltac:(lia) ltac:(lia) Hinc)
        as (out' & bl & ba & Hloop' & _ & Hl & Ha & _).
      rewrite Hloop in Hloop'. inversion Hloop'; subst out'. clear Hloop'.
      rewrite Hl, Ha. subst st'. cbn [lons lats].
      rewrite Z.add_0_r.
      replace (length (lons st) + Z.to_nat (s1 - prev st) - 1)%nat
        with (length (lons st ++ lf1)) by (rewrite length_app; lia).
      replace (length (lats st) + Z.to_nat (s1 - prev st) - 1)%nat
        with (length (lats st ++ af1)) by (rewrite length_app; lia).
      rewrite !(app_assoc (lons st)), !(app_assoc (lats st)).
      rewrite <- !app_assoc.
      rewrite !(app_assoc (lons st) lf1), !(app_assoc (lats st) af1).
      split; (rewrite nth_error_app2 by lia; rewrite Nat.sub_diag;
              reflexivity).
    + simpl in Hs.
      assert (Hle : s1 <= s)
        by (apply (increasing_from_nth s1 rest (S j) s Hinc); exact Hs).
      destruct (IH (i + 1) st' out j s Hrec ltac:(lia) ltac:(lia)
                  ltac:(lia) Hinc Hloop Hs) as [HL HA].
      subst st'. cbn [prev lons lats] in HL, HA.
      rewrite !length_app in HL, HA. simpl length in HL, HA.
      rewrite Hlf1 in HL. rewrite Haf1 in HA.
      replace (i + Z.of_nat (S j)) with (i + 1 + Z.of_nat j) by lia.
      replace (length (lons st) + Z.to_nat (s - prev st) - 1)%nat
        with (length (lons st) + (Z.to_nat (s1 - prev st - 1) + 1)
              + Z.to_nat (s - s1) - 1)%nat by lia.
      replace (length (lats st) + Z.to_nat (s - prev st) - 1)%nat
        with (length (lats st) + (Z.to_nat (s1 - prev st - 1) + 1)
              + Z.to_nat (s - s1) - 1)%nat by lia.
      split; assumption.
Qed.

Lemma arange_nth_error (a b z : Z) :
  a <= z < b -> nth_error (arange a b) (Z.to_nat (z - a)) = Some z.
Proof.
  intros Hz.
  rewrite (nth_error_nth' _ (a + Z.of_nat 0))
    by (rewrite arange_length; lia).
  unfold arange.
  rewrite (map_nth (fun k => a + Z.of_nat k)), seq_nth by lia.
  f_equal. lia.
Qed.

(** X10.  The observed points are kept: on a valid input with a recognised
    fill type, the point at any input index, with step [s], is in the
    output at position [s - first step] with its own longitude and
    latitude. *)
Theorem fillCoords_keeps_points (trackSteps : list Z)
    (trackLons trackLats : list R) (fill : string) (i : nat) (s : Z)
    (lon lat : R) :
  valid trackSteps trackLons trackLats ->
  recognised fill ->
  nth_error trackSteps i = Some s ->
  nth_error trackLons i = Some lon ->
  nth_error trackLats i = Some lat ->
  exists os ol oa,
    fillCoords trackSteps trackLons trackLats fill = Ok (os, ol, oa) /\
    nth_error os (Z.to_nat (s - hd 0 trackSteps)) = Some s /\
    nth_error ol (Z.to_nat (s - hd 0 trackSteps)) = Some lon /\
    nth_error oa (Z.to_nat (s - hd 0 trackSteps)) = Some lat.
Proof.
  intros Hv Hrec Hs Hlon Hlat.
  destruct (fillCoords_dense_out _ _ _ fill Hv Hrec)
    as (os & ol & oa & Hfc & Hos & _).
  exists os, ol, oa. split; [exact Hfc|].
  destruct (valid_cons _ _ _ Hv) as (s0 & t & -> & Hnl & Hna & Hinc).
  cbn [hd] in *. rewrite last_cons in Hos.
  pose proof (increasing_from_nth s0 t i s Hinc Hs) as Hlo.
  pose proof (increasing_from_nth_last s0 t i s Hinc Hs) as Hhi.
  split; [rewrite Hos; apply arange_nth_error; lia|].
  rewrite fillCoords_unfold in Hfc by lia.
  destruct (fill_loop fill trackLons trackLats 1 t _) as [out|e] eqn:Hloop;
    [|discriminate].
  cbn [bind] in Hfc. inversion Hfc; subst os ol oa. clear Hfc.
  destruct i as [|j].
  - simpl in Hs. inversion Hs; subst s. rewrite Z.sub_diag.
    destruct (fill_loop_dense fill trackLons trackLats t 1
                (mk_fill_state s0 [s0] [nth 0 trackLons 0%R]
                   [nth 0 trackLats 0%R]) Hrec ltac:(lia) ltac:(lia)
                ltac:(lia) Hinc)
      as (out' & bl & ba & Hloop' & _ & Hl & Ha & _).
    rewrite Hloop in Hloop'. inversion Hloop'; subst out'.
    rewrite Hl, Ha. cbn [lons lats app Z.to_nat nth_error].
    rewrite (nth_error_nth _ _ 0%R Hlon), (nth_error_nth _ _ 0%R Hlat).
    split; reflexivity.
  - simpl in Hs.
    assert (Hlt : s0 < s).
    { clear - Hinc Hs. revert s0 j Hinc Hs.
      induction t as [|s1 t IH]; intros s0 j Hinc Hs;
        [destruct j; discriminate|].
      simpl in Hinc. apply andb_true_iff in Hinc.
      destruct Hinc as [H1 Hinc]. apply Z.ltb_lt in H1.
      destruct j as [|j]; simpl in Hs; [inversion Hs; lia|].
      specialize (IH s1 j Hinc Hs). lia. }
    destruct (fill_loop_keeps fill trackLons trackLats t 1
                (mk_fill_state s0 [s0] [nth 0 trackLons 0%R]
                   [nth 0 trackLats 0%R]) out j s Hrec ltac:(lia)
                ltac:(lia) ltac:(lia) Hinc Hloop Hs) as [HL HA].
    cbn [prev lons lats length] in HL, HA.
    replace (1 + Z.to_nat (s - s0) - 1)%nat with (Z.to_nat (s - s0))
      in HL, HA by lia.
    replace (Z.to_nat (1 + Z.of_nat j)) with (S j) in HL, HA by lia.
    rewrite (nth_error_nth _ _ 0%R Hlon) in HL.
    rewrite (nth_error_nth _ _ 0%R Hlat) in HA.
    split; assumption.
Qed.

Lemma fillCoords_keeps_points_witness :
  valid [2; 5] [0; 3]%R [0; 0]%R /\
  recognised "linear" /\
  exists os ol oa,
    fillCoords [2; 5] [0; 3]%R [0; 0]%R "linear" = Ok (os, ol, oa) /\
    nth_error os 3 = Some 5 /\ nth_error ol 3 = Some 3%R.
Proof.
  assert (Hv : valid [2; 5] [0; 3]%R [0; 0]%R)
    by (repeat split; [discriminate]).
  assert (Hrec : recognised "linear") by (right; left; reflexivity).
  split; [exact Hv|]. split; [exact Hrec|].
  destruct (fillCoords_keeps_points [2; 5] [0; 3]%R [0; 0]%R "linear" 1 5
              3%R 0%R Hv Hrec eq_refl eq_refl eq_refl)
    as (os & ol & oa & Hfc & Hs & Hl & _).
  exists os, ol, oa. repeat split; assumption.
Defined.

(** ** fillCoords: relations between the fill types *)

Lemma fill_body_linear_begin (trackLons trackLats : list R)
    (st : fill_state) (i step : Z) :
  step - prev st <= 2 ->
  fill_body "linear" trackLons trackLats st i step =
  fill_body "begin" trackLons trackLats st i step.
Proof.
  intros Hle. unfold fill_body.
  destruct (getitem trackLons i) as [lon|e]; [|reflexivity].
  destruct (getitem trackLats i) as [lat|e]; [|reflexivity].
  cbn [bind].
  destruct (step - prev st >? 1) eqn:Hgap; [|reflexivity].
  rewrite Z.gtb_ltb in Hgap. apply Z.ltb_lt in Hgap.
  rewrite arange_length.
  replace (Z.to_nat (step - (prev st + 1))) with 1%nat by lia.
  unfold gapFill. cbn [String.eqb Ascii.eqb Bool.eqb].
  destruct (getitem trackLons (i - 1)) as [lonB|e]; [|reflexivity].
  destruct (getitem trackLats (i - 1)) as [latB|e]; [|reflexivity].
  cbn [bind]. rewrite !linspace_one, !ones_times_repeat. reflexivity.
Qed.

Lemma fill_body_prev (fill : string) (trackLons trackLats : list R)
    (st st' : fill_state) (i s : Z) :
  fill_body fill trackLons trackLats st i s = Ok st' -> prev st' = s.
Proof.
  unfold fill_body. intros Hb.
  destruct (getitem trackLons i); [|discriminate].
  destruct (getitem trackLats i); [|discriminate].
  cbn [bind] in Hb.
  destruct (s - prev st >?  1);
    [destruct (gapFill _ _ _ _ _ _ _) as [[lf af]|]|];
    cbn [bind] in Hb; inversion Hb; reflexivity.
Qed.

Lemma fill_loop_linear_begin (trackLons trackLats : list R)
    (rest : list Z) :
  forall (i : Z) (st : fill_state),
    max_diff_from 2 (prev st) rest = true ->
    fill_loop "linear" trackLons trackLats i rest st =
    fill_loop "begin" trackLons trackLats i rest st.
Proof.
  induction rest as [|s rest IH]; intros i st Hdiff; [reflexivity|].
  simpl in Hdiff. apply andb_true_iff in Hdiff.
  destruct Hdiff as [Hle Hdiff]. apply Z.leb_le in Hle.
  cbn [fill_loop]. rewrite fill_body_linear_begin by exact Hle.
  destruct (fill_body "begin" trackLons trackLats st i s) as [st'|e] eqn:Hb;
    cbn [bind]; [|reflexivity].
  apply IH.
  pose proof (fill_body_prev _ _ _ _ _ _ _ Hb) as Hprev.
  now rewrite Hprev.
Qed.

(** X11.  Where every gap misses a single step, 'linear' fills exactly as
    'begin' does: the one sample of [np.linspace] is its start, the point
    before the gap.  The two calls agree on every input whose consecutive
    steps differ by at most 2, errors included. *)
Theorem fillCoords_linear_is_begin_on_single_steps (trackSteps : list Z)
    (trackLons trackLats : list R) :
  single_step_gaps trackSteps = true ->
  fillCoords trackSteps trackLons trackLats "linear" =
  fillCoords trackSteps trackLons trackLats "begin".
Proof.
  intros Hsmall. unfold fillCoords.
  destruct trackSteps as [|s0 t]; [reflexivity|].
  rewrite (getitem_nth (s0 :: t) 0 0) by (simpl length; lia).
  cbn [bind Z.to_nat nth].
  rewrite fill_loop_linear_begin; [reflexivity|].
  cbn [prev max_diff_from].
  replace (s0 - s0 <=? 2) with true by (symmetry; apply Z.leb_le; lia).
  exact Hsmall.
Qed.

Lemma fillCoords_linear_is_begin_on_single_steps_witness :
  single_step_gaps [1; 3; 4; 6] = true /\
  fillCoords [1; 3; 4; 6] [0; 2; 3; 5]%R [9; 8; 7; 6]%R "linear" =
  fillCoords [1; 3; 4; 6] [0; 2; 3; 5]%R [9; 8; 7; 6]%R "begin".
Proof.
  split; [reflexivity|].
  exact (fillCoords_linear_is_begin_on_single_steps [1; 3; 4; 6]
           [0; 2; 3; 5]%R [9; 8; 7; 6]%R eq_refl).
Defined.

Open Scope R_scope.

Lemma between_l (a b : R) : Rmin a b <= a <= Rmax a b.
Proof. split; [apply Rmin_l | apply Rmax_l]. Qed.

Lemma between_r (a b : R) : Rmin a b <= b <= Rmax a b.
Proof. split; [apply Rmin_r | apply Rmax_r]. Qed.

Lemma between_mean (a b : R) : Rmin a b <= (b + a) / 2 <= Rmax a b.
Proof.
  unfold Rmin, Rmax. destruct (Rle_dec a b); split; lra.
Qed.

Lemma between_convex (a b t : R) :
  0 <= t <= 1 -> Rmin a b <= a + t * (b - a) <= Rmax a b.
Proof.
  intros Ht. unfold Rmin, Rmax. destruct (Rle_dec a b); split; nra.
Qed.

Lemma linspace_between (a b : R) (n : nat) :
  Forall (fun v => Rmin a b <= v <= Rmax a b) (linspace a b n).
Proof.
  destruct n as [|[|n]].
  - constructor.
  - rewrite linspace_one. constructor; [apply between_l | constructor].
  - apply Forall_forall. intros v Hin.
    destruct (In_nth _ _ 0 Hin) as (k & Hk & <-).
    rewrite linspace_length in Hk.
    rewrite linspace_nth by lia.
    assert (Hpos : 0 < INR (S (S n) - 1)) by (apply lt_0_INR; lia).
    assert (Hk0 : 0 <= INR k) by apply pos_INR.
    assert (Hk1 : INR k <= INR (S (S n) - 1)) by (apply le_INR; lia).
    replace (a + INR k * ((b - a) / INR (S (S n) - 1)))
      with (a + INR k / INR (S (S n) - 1) * (b - a)) by (field; lra).
    apply between_convex. split.
    + apply Rmult_le_pos; [exact Hk0|].
      apply Rlt_le, Rinv_0_lt_compat, Hpos.
    + apply (Rmult_le_reg_r (INR (S (S n) - 1))); [exact Hpos|].
      unfold Rdiv. rewrite Rmult_assoc, Rinv_l by lra. lra.
Qed.

Lemma repeat_between (a b v : R) (n : nat) :
  Rmin a b <= v <= Rmax a b ->
  Forall (fun x => Rmin a b <= x <= Rmax a b) (repeat v n).
Proof.
  intros Hv. apply Forall_forall. intros x Hin.
  now rewrite (repeat_spec _ _ _ Hin).
Qed.

(** X12.  Filled coordinates stay between the coordinates that bracket
    the gap: for a valid input, every recognised fill type and every gap,
    each synthesized longitude lies between the longitude before the gap
    and the one after it, bounds included, and so does each synthesized
    latitude. *)
Theorem fillCoords_fills_between (trackSteps : list Z)
    (trackLons trackLats : list R) (fill : string) (i : nat) (p s : Z)
    (lonB lon latB lat : R) :
  valid trackSteps trackLons trackLats ->
  recognised fill ->
  nth_error trackSteps i = Some p ->
  nth_error trackSteps (S i) = Some s ->
  (s - p > 1)%Z ->
  nth_error trackLons i = Some lonB ->
  nth_error trackLons (S i) = Some lon ->
  nth_error trackLats i = Some latB ->
  nth_error trackLats (S i) = Some lat ->
  exists os ol oa,
    fillCoords trackSteps trackLons trackLats fill = Ok (os, ol, oa) /\
    Forall (fun v => Rmin lonB lon <= v <= Rmax lonB lon)
      (gap_slice ol (hd 0%Z trackSteps) p s) /\
    Forall (fun v => Rmin latB lat <= v <= Rmax latB lat)
      (gap_slice oa (hd 0%Z trackSteps) p s).
Proof.
  intros Hv Hrec Hp Hs Hgt HlonB Hlon HlatB Hlat.
  set (n := Z.to_nat (s - p - 1)).
  assert (Hfill : exists lf af,
             gapFill fill trackLons trackLats (Z.of_nat (S i)) lon lat n =
             Ok (lf, af) /\
             Forall (fun v => Rmin lonB lon <= v <= Rmax lonB lon) lf /\
             Forall (fun v => Rmin latB lat <= v <= Rmax latB lat) af).
  { destruct Hrec as [-> | [-> | [-> | ->]]].
    - exists (repeat ((lon + lonB) / 2) n), (repeat ((lat + latB) / 2) n).
      split; [now apply gapFill_midpoint|].
      split; apply repeat_between, between_mean.
    - exists (linspace lonB lon n), (linspace latB lat n).
      split; [now apply gapFill_linear|].
      split; apply linspace_between.
    - exists (repeat lonB n), (repeat latB n).
      split; [now apply gapFill_begin|].
      split; apply repeat_between, between_l.
    - exists (repeat lon n), (repeat lat n).
      split; [now apply gapFill_end|].
      split; apply repeat_between, between_r. }
  destruct Hfill as (lf & af & Hg & Hlf & Haf).
  destruct (fillCoords_gap_values trackSteps trackLons trackLats fill
              i p s lon lat lf af Hv Hrec Hp Hs Hgt Hlon Hlat Hg)
    as (os & ol & oa & Hfc & Hl & Ha).
  exists os, ol, oa. rewrite Hl, Ha. repeat split; assumption.
Qed.

Lemma fillCoords_fills_between_witness :
  valid [2; 6]%Z [0; 3] [5; 1] /\
  recognised "linear" /\
  exists os ol oa,
    fillCoords [2; 6]%Z [0; 3] [5; 1] "linear" = Ok (os, ol, oa) /\
    Forall (fun v => Rmin 0 3 <= v <= Rmax 0 3) (gap_slice ol 2%Z 2%Z 6%Z).
Proof.
  assert (Hv : valid [2; 6]%Z [0; 3] [5; 1])
    by (repeat split; [discriminate]).
  assert (Hrec : recognised "linear") by (right; left; reflexivity).
  split; [exact Hv|]. split; [exact Hrec|].
  destruct (fillCoords_fills_between [2; 6]%Z [0; 3] [5; 1] "linear" 0
              2%Z 6%Z 0 3 5 1 Hv Hrec eq_refl eq_refl ltac:(lia)
              eq_refl eq_refl eq_refl eq_refl)
    as (os & ol & oa & Hfc & Hl & _).
  exists os, ol, oa. split; [exact Hfc | exact Hl].
Defined.

(** ** geodist: growing and standing tracks *)

Lemma consecutive_snoc {A : Type} (l : list A) (p q : A) :
  consecutive (l ++ [p; q]) = consecutive (l ++ [p]) ++ [(p, q)].
Proof.
  induction l as [|a [|b l] IH]; [reflexivity | reflexivity|].
  change (consecutive ((a :: b :: l) ++ [p; q]))
    with ((a, b) :: consecutive ((b :: l) ++ [p; q])).
  change (consecutive ((a :: b :: l) ++ [p]))
    with ((a, b) :: consecutive ((b :: l) ++ [p])).
  now rewrite IH.
Qed.

Lemma combine_snoc {A B : Type} (l : list A) (l' : list B)
    (m : list A) (m' : list B) :
  length l = length l' ->
  combine (l ++ m) (l' ++ m') = combine l l' ++ combine m m'.
Proof.
  revert l'. induction l as [|a l IH]; intros [|b l'] Hlen;
    try discriminate; [reflexivity|].
  simpl. f_equal. apply IH. now injection Hlen.
Qed.

(** X15.  The distance can be accumulated point by point: a further point
    adds the great-circle distance from the last point to it and leaves
    the distance of the track so far as it is. *)
Theorem geodist_append_point (lons lats : list R) (x y x' y' : R) :
  length lons = length lats ->
  exists d,
    geodist (lons ++ [x]) (lats ++ [y]) = Ok d /\
    geodist (lons ++ [x; x']) (lats ++ [y; y']) =
    Ok (d + haversine x y x' y').
Proof.
  intros Hlen. exists (totalTrackDistance (lons ++ [x]) (lats ++ [y])).
  rewrite !geodist_total by (rewrite !length_app; simpl; lia).
  split; [reflexivity|]. f_equal. unfold totalTrackDistance.
  rewrite !combine_snoc by assumption.
  change (combine [x; x'] [y; y']) with [(x, y); (x', y')].
  change (combine [x] [y]) with [(x, y)].
  rewrite consecutive_snoc, fold_left_app. reflexivity.
Qed.

Lemma geodist_append_point_witness :
  length [0; 1] = length [5; 5] /\
  exists d,
    geodist ([0; 1] ++ [2]) ([5; 5] ++ [5]) = Ok d /\
    geodist ([0; 1] ++ [2; 3]) ([5; 5] ++ [5; 6]) =
    Ok (d + haversine 2 5 3 6).
Proof.
  split; [reflexivity|].
  exact (geodist_append_point [0; 1] [5; 5] 2 5 3 6 eq_refl).
Defined.

Lemma haversine_same_point (lon lat : R) : haversine lon lat lon lat = 0.
Proof.
  unfold haversine.
  replace (radians lon - radians lon) with 0 by ring.
  replace (radians lat - radians lat) with 0 by ring.
  replace (0 / 2) with 0 by field. rewrite sin_0.
  replace (0 ^ 2 + cos (radians lat) * cos (radians lat) * 0 ^ 2) with 0
    by ring.
  rewrite Rminus_0_r, sqrt_0, sqrt_1, arctan2_0_1. ring.
Qed.

(** X16.  An eddy that does not move travels no distance: on a track whose
    points are all the same point, however many, [geodist] returns 0. *)
Theorem geodist_stationary (lon lat : R) (n : nat) :
  geodist (repeat lon n) (repeat lat n) = Ok 0.
Proof.
  rewrite geodist_total by (now rewrite !repeat_length).
  f_equal. unfold totalTrackDistance.
  assert (Hfold : forall m acc,
             fold_left add_leg
               (consecutive (combine (repeat lon m) (repeat lat m))) acc
             = acc).
  { induction m as [|[|m] IH]; intros acc; [reflexivity | reflexivity|].
    change (consecutive (combine (repeat lon (S (S m)))
                           (repeat lat (S (S m)))))
      with (((lon, lat), (lon, lat)) ::
            consecutive (combine (repeat lon (S m)) (repeat lat (S m)))).
    cbn [fold_left]. rewrite IH. unfold add_leg. cbn [fst snd].
    rewrite haversine_same_point. ring. }
  apply Hfold.
Qed.

(** ** haversine along a meridian and along the equator *)

Lemma central_angle_half (h : R) :
  0 <= h <= PI / 2 ->
  arctan2 (sqrt (sin h ^ 2)) (sqrt (1 - sin h ^ 2)) = h.
Proof.
  intros [Hlo Hhi]. pose proof PI_RGT_0 as Hpi.
  assert (Hsin : 0 <= sin h) by (apply sin_ge_0; lra).
  assert (Hcos : 0 <= cos h) by (apply cos_ge_0; lra).
  replace (1 - sin h ^ 2) with (cos h ^ 2)
    by (pose proof (sin2_cos2 h) as H; unfold Rsqr in H; lra).
  rewrite !sqrt_pow2 by assumption.
  unfold arctan2.
  destruct (Rlt_dec 0 (cos h)) as [Hpos | Hnpos].
  - destruct (Req_dec h (PI / 2)) as [-> | Hne];
      [rewrite cos_PI2 in Hpos; lra|].
    change (sin h / cos h) with (tan h). apply atan_tan. lra.
  - assert (Hc0 : cos h = 0) by lra.
    destruct (Rlt_dec (cos h) 0) as [Hneg | _]; [lra|].
    assert (Hh : h = PI / 2).
    { destruct (Req_dec h (PI / 2)) as [E | Hne]; [exact E|].
      pose proof (cos_gt_0 h ltac:(lra) ltac:(lra)). lra. }
    subst h. rewrite sin_PI2.
    destruct (Rlt_dec 0 1) as [_ | H]; [reflexivity | lra].
Qed.

Lemma central_angle (delta : R) :
  Rabs delta <= PI ->
  2 * arctan2 (sqrt (sin (delta / 2) ^ 2))
        (sqrt (1 - sin (delta / 2) ^ 2)) = Rabs delta.
Proof.
  intros Hd.
  assert (Hsq : sin (delta / 2) ^ 2 = sin (Rabs delta / 2) ^ 2).
  { unfold Rabs. destruct (Rcase_abs delta) as [Hneg | Hpos];
      [|reflexivity].
    replace (- delta / 2) with (- (delta / 2)) by field.
    rewrite sin_neg. ring. }
  rewrite Hsq, central_angle_half; [field|].
  pose proof (Rabs_pos delta). lra.
Qed.

Lemma radians_Rabs (x : R) : radians (Rabs x) = Rabs (radians x).
Proof.
  unfold radians. pose proof PI_RGT_0 as Hpi.
  rewrite Rabs_mult, (Rabs_pos_eq (PI / 180)) by lra. reflexivity.
Qed.

Lemma radians_le_PI (x : R) : Rabs x <= 180 -> Rabs (radians x) <= PI.
Proof.
  intros Hx. rewrite <- radians_Rabs. unfold radians.
  pose proof PI_RGT_0 as Hpi. pose proof (Rabs_pos x). nra.
Qed.

(** X17.  Along a meridian the distance is the arc of the difference in
    latitude: for two points of one longitude whose latitudes are at most
    180 degrees apart, [haversine] returns 6373 times that difference in
    radians. *)
Theorem haversine_meridian (lon lat1 lat2 : R) :
  Rabs (lat2 - lat1) <= 180 ->
  haversine lon lat1 lon lat2 = 6373 * radians (Rabs (lat2 - lat1)).
Proof.
  intros Hd. unfold haversine.
  replace (radians lon - radians lon) with 0 by ring.
  replace (0 / 2) with 0 by field. rewrite sin_0.
  replace (radians lat2 - radians lat1) with (radians (lat2 - lat1))
    by (unfold radians; ring).
  replace (sin (radians (lat2 - lat1) / 2) ^ 2 +
           cos (radians lat1) * cos (radians lat2) * 0 ^ 2)
    with (sin (radians (lat2 - lat1) / 2) ^ 2) by ring.
  rewrite central_angle by (now apply radians_le_PI).
  now rewrite radians_Rabs.
Qed.

Lemma haversine_meridian_witness :
  Rabs (90 - 0) <= 180 /\
  haversine 10 0 10 90 = 6373 * radians (Rabs (90 - 0)).
Proof.
  assert (Hd : Rabs (90 - 0) <= 180)
    by (rewrite Rabs_pos_eq; lra).
  split; [exact Hd|].
  exact (haversine_meridian 10 0 90 Hd).
Defined.

(** X18.  Along the equator the distance is the arc of the difference in
    longitude: for two points of latitude 0 whose longitudes are at most
    180 degrees apart, [haversine] returns 6373 times that difference in
    radians. *)
Theorem haversine_equator (lon1 lon2 : R) :
  Rabs (lon2 - lon1) <= 180 ->
  haversine lon1 0 lon2 0 = 6373 * radians (Rabs (lon2 - lon1)).
Proof.
  intros Hd. unfold haversine.
  replace (radians 0) with 0 by (unfold radians; ring).
  replace ((0 - 0) / 2) with 0 by field. rewrite sin_0, cos_0.
  replace (radians lon2 - radians lon1) with (radians (lon2 - lon1))
    by (unfold radians; ring).
  replace (0 ^ 2 + 1 * 1 * sin (radians (lon2 - lon1) / 2) ^ 2)
    with (sin (radians (lon2 - lon1) / 2) ^ 2) by ring.
  rewrite central_angle by (now apply radians_le_PI).
  now rewrite radians_Rabs.
Qed.

Lemma haversine_equator_witness :
  Rabs (-170 - 10) <= 180 /\
  haversine 10 0 (-170) 0 = 6373 * radians (Rabs (-170 - 10)).
Proof.
  assert (Hd : Rabs (-170 - 10) <= 180)
    by (rewrite Rabs_left; lra).
  split; [exact Hd|].
  exact (haversine_equator 10 (-170) Hd).
Defined.
